(** * Synteny detection (algorithms/synteny.py): a shallow embedding

    The development follows the Python module function by function:
    [_score], [read_blast], [read_anchors], [synteny_scan],
    [synteny_liftover], [get_segments] and the counting part of [cluster].
    Genome-order indices and coordinates are Python integers, modelled as
    [Z]; dictionaries are [gmap]s, sets are [gset]s, lists are lists. *)

From stdpp Require Import gmap strings list sorting pretty.
From Stdlib Require Import ZArith QArith Qround Lia Ascii.

Local Open Scope Z_scope.

(** ** Points and their order *)

(** A point is a Python tuple [(x, y)] of two integers. *)
Definition point : Type := Z * Z.

(** Python compares tuples lexicographically; [points.sort()] and
    [sorted(cluster)] use that order. *)
Definition point_le (p q : point) : Prop :=
  p.1 < q.1 ∨ (p.1 = q.1 ∧ p.2 ≤ q.2).

#[global] Instance point_le_dec : RelDecision point_le.
Proof. intros p q. unfold point_le. apply _. Defined.

#[global] Instance point_le_total : Total point_le.
Proof. intros [a b] [c d]. unfold point_le. simpl. lia. Qed.

#[global] Instance point_le_trans : Transitive point_le.
Proof. intros [a b] [c d] [e f]. unfold point_le. simpl. lia. Qed.

#[global] Instance point_le_antisymm : AntiSymm (=) point_le.
Proof.
  intros [a b] [c d]. unfold point_le. simpl. intros H1 H2.
  f_equal; lia.
Qed.

(** [list.sort()] / [sorted(...)] on a list of points. The order is total
    and antisymmetric, so every sorting algorithm returns the same list
    (lemma [py_sort_unique] below); the merge sort of stdpp stands for
    Python's. *)
Definition py_sort (l : list point) : list point := merge_sort point_le l.

(** ** _score *)

(** [_score(cluster)] unzips the cluster into its x and y columns and
    returns [min(len(set(x)), len(set(y)))]. (The unzipping raises on an
    empty cluster; [synteny_scan] only calls it on union-find groups, which
    are never empty: [scan_groups_nonempty].) *)
Definition _score (cluster : list point) : Z :=
  let x : gset Z := list_to_set (cluster.*1) in
  let y : gset Z := list_to_set (cluster.*2) in
  Z.min (Z.of_nat (size x)) (Z.of_nat (size y)).

(** ** Grouper *)

Module Grouper.

(** Modelled from the spec: the disjoint-set structure [Grouper] of
    jcvi.utils.grouper is not part of the source file. The spec asks for
    "an explicit disjoint-set structure (union by rank or size ...) exposing
    group-membership enumeration after all unions are applied". The
    structure is the list of its current groups; an element that was never
    joined is in no group. *)
Abbreviation t := (list (list point)).

(** Modelled from the spec: a Grouper with no group yet ([Grouper()]). *)
Definition empty : t := [].

(** Modelled from the spec: the find operation, as the index of the group
    that holds [a], if any. *)
Fixpoint find (g : t) (a : point) : option nat :=
  match g with
  | [] => None
  | s :: g' => if decide (a ∈ s) then Some 0%nat else S <$> find g' a
  end.

(** Modelled from the spec: an element that takes part in a join for the
    first time gets a group of its own. *)
Definition touch (g : t) (a : point) : t :=
  match find g a with
  | Some _ => g
  | None => g ++ [[a]]
  end.

(** Modelled from the spec: [join a b] puts [a] and [b] in the same group
    (union by size: the smaller group is appended to the larger one). *)
Definition join (g : t) (a b : point) : t :=
  let g1 := touch g a in
  match find g1 a with
  | None => g1
  | Some ia =>
      match find g1 b with
      | None => alter (λ s, s ++ [b]) ia g1
      | Some ib =>
          if decide (ia = ib) then g1
          else
            let sa := default [] (g1 !! ia) in
            let sb := default [] (g1 !! ib) in
            if decide (length sa < length sb)%nat
            then delete ia (alter (λ s, s ++ sa) ib g1)
            else delete ib (alter (λ s, s ++ sb) ia g1)
      end
  end.

(** Modelled from the spec: the enumeration of the groups
    ([list(clusters)]). *)
Definition groups (g : t) : list (list point) := g.

End Grouper.

(** A well-formed Grouper: no point is in two groups or twice in a group,
    and no group is empty. *)
Definition grouper_wf (g : Grouper.t) : Prop :=
  NoDup (concat g) ∧ Forall (λ s, s ≠ []) g.

(** ** synteny_scan *)

(** The inner loop [for j in xrange(i - 1, -1, -1)]: [prev] holds
    [points[i-1], ..., points[0]] in that order, [p] is [points[i]]. *)
Fixpoint look_back (xdist ydist : Z) (g : Grouper.t) (p : point)
    (prev : list point) : Grouper.t :=
  match prev with
  | [] => g
  | q :: prev' =>
      let del_x := p.1 - q.1 in
      if decide (xdist < del_x) then g                          (* break *)
      else
        let del_y := p.2 - q.2 in
        if decide (ydist < Z.abs del_y)
        then look_back xdist ydist g p prev'                    (* continue *)
        else look_back xdist ydist (Grouper.join g p q) p prev'
  end.

(** The outer loop [for i in xrange(n)]. *)
Fixpoint scan_loop (xdist ydist : Z) (g : Grouper.t)
    (visited rest : list point) : Grouper.t :=
  match rest with
  | [] => g
  | p :: rest' =>
      scan_loop xdist ydist (look_back xdist ydist g p visited)
        (p :: visited) rest'
  end.

(** The union-find groups after the double loop. *)
Definition scan_groups (points : list point) (xdist ydist : Z)
    : list (list point) :=
  Grouper.groups (scan_loop xdist ydist Grouper.empty [] (py_sort points)).

(** [synteny_scan(points, xdist, ydist, N)]. The call sorts the caller's
    list in place, so the model returns the clusters together with the
    final content of that list. *)
Definition synteny_scan (points : list point) (xdist ydist N : Z)
    : list (list point) * list point :=
  let points' := py_sort points in
  let clusters := scan_loop xdist ydist Grouper.empty [] points' in
  (py_sort <$> filter (λ c, N ≤ _score c) (Grouper.groups clusters),
   points').

(** ** Python exceptions *)

(** The exceptions the modelled code can raise; a computation that may raise
    returns [inl e], one that completes returns [inr v]. *)
Inductive exn : Type :=
  | KeyError | IndexError | ZeroDivisionError | ValueError | AssertionError.

Definition result (A : Type) : Type := exn + A.

#[global] Instance result_ret : MRet result := λ A x, inr x.
#[global] Instance result_bind : MBind result := λ A B f m,
  match m with
  | inl e => inl e
  | inr x => f x
  end.

Definition raise {A} (e : exn) : result A := inl e.

(** [d[k]] on a dictionary: [KeyError] when the key is missing. *)
Definition getitem {K V} `{Countable K} (d : gmap K V) (k : K) : result V :=
  match d !! k with
  | Some v => inr v
  | None => raise KeyError
  end.

(** [assert c]. *)
Definition assert (c : bool) : result unit :=
  if c then inr tt else raise AssertionError.

(** ** Bed and blast records *)

(** A line of a bed file, with the two fields the module reads. *)
Record BedLine : Type := { seqid : string; accn : string }.

(** The genome-order lookup [Bed.order]: accession to (index, bed line). *)
Abbreviation order := (gmap string (Z * BedLine)).

(** A parsed blast row: the fields [query] and [subject]. *)
Record BlastLine : Type := { query : string; subject : string }.

(** A blast line after [read_blast] has set [qseqid], [sseqid], [qi] and [si]
    on it. The fields [query] and [subject] of the line itself are never
    reassigned. *)
Record Hit : Type :=
  { line : BlastLine; qseqid : string; sseqid : string; qi : Z; si : Z }.

(** ** read_blast *)

(** One iteration of [for row in fp] in [read_blast]; the state is
    [(seen, filtered_blast)]. *)
Definition read_blast_row (qorder sorder : order) (is_self : bool)
    (st : gset (string * string) * list Hit) (b : BlastLine)
    : gset (string * string) * list Hit :=
  let '(seen, filtered_blast) := st in
  match qorder !! query b, sorder !! subject b with
  | Some (qi0, q0), Some (si0, s0) =>
      let key := (query b, subject b) in
      if decide (key ∈ seen) then st
      else
        let seen := seen ∪ {[ key ]} in
        let '(qi1, si1, q1, s1) :=
          if is_self && bool_decide (si0 < qi0)
          then (si0, qi0, s0, q0)
          else (qi0, si0, q0, s0) in
        (seen,
         filtered_blast ++
           [ {| line := b; qseqid := seqid q1; sseqid := seqid s1;
                qi := qi1; si := si1 |} ])
  | _, _ => st                      (* continue *)
  end.

Definition read_blast (blast_file : list BlastLine) (qorder sorder : order)
    (is_self : bool) : list Hit :=
  (foldl (read_blast_row qorder sorder is_self) (∅, []) blast_file).2.

(** ** read_anchors *)

(** A row of an anchor file: a defline (first character [#]) or a pair of
    accessions. *)
Inductive AnchorRow : Type :=
  | Defline
  | AnchorPair (a b : string).

Abbreviation chr_pair_points := (gmap (string * string) (list point)).

(** [d[k].append(v)] on a [defaultdict(list)]. *)
Definition append_to (d : chr_pair_points) (k : string * string) (v : point)
    : chr_pair_points :=
  <[ k := default [] (d !! k) ++ [v] ]> d.

Definition read_anchors_row (qorder sorder : order)
    (all_anchors : chr_pair_points) (row : AnchorRow) : chr_pair_points :=
  match row with
  | Defline => all_anchors
  | AnchorPair a b =>
      match qorder !! a, sorder !! b with
      | Some (qi0, q0), Some (si0, s0) =>
          append_to all_anchors (seqid q0, seqid s0) (qi0, si0)
      | _, _ => all_anchors         (* continue *)
      end
  end.

Definition read_anchors (anchor_file : list AnchorRow)
    (qorder sorder : order) : chr_pair_points :=
  foldl (read_anchors_row qorder sorder) ∅ anchor_file.

(** ** synteny_liftover *)

(** The L1 (Minkowski [p=1]) distance. *)
Definition l1_dist (a b : point) : Z :=
  Z.abs (a.1 - b.1) + Z.abs (a.2 - b.2).

Module cKDTree.

(** [cKDTree(anchors).query(x, p=1, distance_upper_bound=upper)] of
    scipy.spatial, for one query point and [k = 1]. The library is outside
    the repository; the search is modelled by the scan scipy runs in a leaf:
    a data point replaces the current neighbour only when its distance [d]
    satisfies [d < distance_upper_bound], and the bound then shrinks to [d].
    The answer is the pair (distance, index) of the nearest neighbour, and
    (infinity, [n]) with [n = len(data)] when no data point is closer than
    the bound; [None] stands for infinity. Coordinates are integers, so the
    distances are exact in floating point. *)
Fixpoint query_scan (x : point) (i : nat) (data : list point)
    (best : option Z * nat) (upper : Z) : option Z * nat :=
  match data with
  | [] => best
  | a :: data' =>
      let d := l1_dist a x in
      if decide (d < upper)
      then query_scan x (S i) data' (Some d, i) d
      else query_scan x (S i) data' best upper
  end.

Definition query (data : list point) (x : point) (upper : Z)
    : option Z * nat :=
  query_scan x 0%nat data (None, length data) upper.

End cKDTree.

(** A row of the [points] array: its first two columns and the others
    ([ppoints = points[:, :2]] keeps the first two). *)
Record Row : Type := { row_xy : point; row_rest : list Z }.

(** [synteny_liftover(points, anchors, dist)]: the generator's yields. *)
Definition synteny_liftover (points : list Row) (anchors : list point)
    (dist : Z) : list Row :=
  let n := length anchors in
  filter (λ r, (cKDTree.query anchors (row_xy r) dist).2 ≠ n) points.

(** ** range_chain *)

(** [Range = namedtuple("Range", "seqid start end score id")]. *)
Record Range : Type :=
  { r_seqid : string; r_start : Z; r_end : Z; r_score : Z; r_id : Z }.

(** Modelled from the spec: "sort by end coordinate". *)
Definition range_end_le (a b : Range) : Prop := r_end a ≤ r_end b.

#[global] Instance range_end_le_dec : RelDecision range_end_le.
Proof. intros a b. unfold range_end_le. apply _. Defined.

(** Modelled from the spec: the dynamic-programming table of [range_chain],
    one entry per processed range, most recent first, holding the best
    (score, chain) over the ranges processed so far. *)
Definition chain_table : Type := list (Range * (Z * list Range)).

(** Modelled from the spec: the best chain over all the ranges processed so
    far (the "skip" alternative). *)
Definition best_so_far (tbl : chain_table) : Z * list Range :=
  match tbl with
  | [] => (0, [])
  | (_, best) :: _ => best
  end.

(** Modelled from the spec: the best chain over the ranges that end before
    [pos], that is the entry of the latest non-overlapping predecessor. *)
Fixpoint best_before (pos : Z) (tbl : chain_table) : Z * list Range :=
  match tbl with
  | [] => (0, [])
  | (r, best) :: tbl' =>
      if decide (r_end r < pos) then best else best_before pos tbl'
  end.

(** Modelled from the spec: "the better of skip vs take + best compatible
    predecessor"; the earlier chain is kept on a tie. *)
Definition chain_step (tbl : chain_table) (r : Range) : chain_table :=
  let skip := best_so_far tbl in
  let pred := best_before (r_start r) tbl in
  let take := (pred.1 + r_score r, pred.2 ++ [r]) in
  (r, if decide (skip.1 < take.1) then take else skip) :: tbl.

(** Modelled from the spec: [range_chain] of jcvi.utils.range is not part of
    the source file. The spec describes it as weighted interval scheduling:
    "sort by end coordinate; for each range find the latest non-overlapping
    predecessor; dynamic program taking the better of skip vs take + best
    compatible predecessor; reconstruct the chosen subset. Ties broken by
    input order." It returns the chosen ranges and their total weight. *)
Definition range_chain (ranges : list Range) : list Range * Z :=
  let best :=
    best_so_far (foldl chain_step [] (merge_sort range_end_le ranges)) in
  (best.2, best.1).

(** ** get_segments *)

Definition NUL : Z := -1.

Section get_segments.

(** The event tags [LEFT] and [RIGHT] are imported from jcvi.utils.range,
    which is not part of the source file: they are parameters here.
    (jcvi.utils.range declares [LEFT, RIGHT = 0, 1].) *)
Variables LEFT RIGHT : Z.

(** The loop [for a, ai in endpoints] with its yields. *)
Fixpoint sweep (minsegment current_left : Z) (endpoints : list (Z * Z))
    : list (Z * Z) :=
  match endpoints with
  | [] => []
  | (a, ai) :: rest =>
      let current_left := if decide (ai = LEFT) then a else current_left in
      if decide (ai = RIGHT) then
        (current_left, a) :: sweep minsegment current_left rest
      else if decide (ai = NUL) then
        if decide (a - current_left < minsegment)
        then sweep minsegment current_left rest            (* continue *)
        else (current_left, a - 1) :: sweep minsegment a rest
      else sweep minsegment current_left rest
  end.

(** The value of [current_left] when the loop has gone through
    [endpoints]: the same updates as in [sweep], without the yields. *)
Fixpoint left_after (minsegment current_left : Z) (endpoints : list (Z * Z))
    : Z :=
  match endpoints with
  | [] => current_left
  | (a, ai) :: rest =>
      let current_left := if decide (ai = LEFT) then a else current_left in
      if decide (ai = RIGHT) then left_after minsegment current_left rest
      else if decide (ai = NUL) then
        if decide (a - current_left < minsegment)
        then left_after minsegment current_left rest       (* continue *)
        else left_after minsegment a rest
      else left_after minsegment current_left rest
  end.

(** The sorted event list built from the selected ranges and the extra
    breaks. *)
Definition make_endpoints (selected : list Range) (extra : list (Z * Z))
    : list (Z * Z) :=
  py_sort (((λ x, (r_start x, NUL)) <$> selected)
           ++ ((λ x, (x.1, LEFT)) <$> extra)
           ++ ((λ x, (x.2, RIGHT)) <$> extra)).

(** [get_segments(ranges, extra, minsegment)]: the generator's yields. *)
Definition get_segments (ranges : list Range) (extra : list (Z * Z))
    (minsegment : Z) : list (Z * Z) :=
  let '(selected, score) := range_chain ranges in
  sweep minsegment 0 (make_endpoints selected extra).

End get_segments.

(** A sequence of closed index intervals [(l, r)] that starts at [from],
    has no gap and no overlap, and ends just before [upto]. The pairs
    yielded by [get_segments] are read this way by [write_PAD_bed] (gene [i]
    leaves pad [(a, b)] when [i > b]). *)
Fixpoint tiles (from : Z) (segs : list (Z * Z)) (upto : Z) : Prop :=
  match segs with
  | [] => from = upto
  | (l, r) :: rest => l = from ∧ l ≤ r ∧ tiles (r + 1) rest upto
  end.

(** The same for half-open intervals [[l, r)], the reading of the
    specification's data model. *)
Fixpoint tiles_half_open (from : Z) (segs : list (Z * Z)) (upto : Z) : Prop :=
  match segs with
  | [] => from = upto
  | (l, r) :: rest => l = from ∧ l < r ∧ tiles_half_open r rest upto
  end.

(** ** cluster: observed counts, expected counts, significance *)

(** [np.zeros((m, n))]; the cells of [observed] only ever hold hit counts,
    which a float represents exactly, so they are integers here. *)
Definition zeros (m n : nat) : list (list Z) := replicate m (replicate n 0).

(** [dict((a, i) for i, a in enumerate(names))]. *)
Definition padid (names : list string) : gmap string nat :=
  foldl (λ d ia, <[ ia.2 := ia.1 ]> d) ∅ (imap pair names).

(** [observed[qsi, ssi] += 1]. *)
Definition incr (observed : list (list Z)) (i j : nat)
    : result (list (list Z)) :=
  match observed !! i with
  | None => raise IndexError
  | Some row =>
      match row !! j with
      | None => raise IndexError
      | Some v => mret (<[ i := <[ j := v + 1 ]> row ]> observed)
      end
  end.

(** [observed.sum()]. *)
Definition matrix_sum (a : list (list Z)) : Z :=
  foldr (λ row acc, foldr Z.add 0 row + acc) 0 a.

(** One iteration of the counting loop of [cluster]; the state is
    [(observed, all_dots)]. *)
Definition count_row (qpadorder spadorder : order)
    (qpadid spadid : gmap string nat) (st : list (list Z) * Z)
    (b : BlastLine) : result (list (list Z) * Z) :=
  let '(observed, all_dots) := st in
  qe ← getitem qpadorder (query b);
  se ← getitem spadorder (subject b);
  qsi ← getitem qpadid (seqid qe.2);
  ssi ← getitem spadid (seqid se.2);
  observed ← incr observed qsi ssi;
  mret (observed, all_dots + 1).

Fixpoint count_hits (qpadorder spadorder : order)
    (qpadid spadid : gmap string nat) (st : list (list Z) * Z)
    (blastfile : list BlastLine) : result (list (list Z) * Z) :=
  match blastfile with
  | [] => mret st
  | b :: rows =>
      st' ← count_row qpadorder spadorder qpadid spadid st b;
      count_hits qpadorder spadorder qpadid spadid st' rows
  end.

Section cluster.

(** Floating-point numbers and the operations on them are parameters:
    [expected_cell all_dots alen blen S] is [all_dots * alen * blen * 1. / S]
    for a non-zero [S], [fsum] is [expected.sum()], [round_int] is
    [int(round(.))], and [significance M obs exp] is
    [max(- log(M * poisson.pmf(obs, exp)), 0)], which raises when the
    logarithm is undefined. *)
Variable F : Type.
Variable expected_cell : Z → Z → Z → Z → F.
Variable fsum : list (list F) → F.
Variable round_int : F → Z.
Variable significance : Z → Z → F → result F.

(** What a completed run has computed. *)
Record Scores : Type :=
  { observed : list (list Z); all_dots : Z;
    expected : list (list F); logmp : list (list F) }.

(** The loop that fills [expected]. *)
Definition expected_matrix (qpadnames spadnames : list string)
    (qpadlen spadlen : gmap string Z) (all_dots S : Z)
    : result (list (list F)) :=
  mapM (λ a,
      alen ← getitem qpadlen a;
      mapM (λ b,
          blen ← getitem spadlen b;
          if decide (S = 0) then raise ZeroDivisionError
          else mret (expected_cell all_dots alen blen S)) spadnames)
    qpadnames.

(** The loop that fills [logmp]; [M] is the number of cells. *)
Definition significance_matrix (M : Z) (observed : list (list Z))
    (expected : list (list F)) : result (list (list F)) :=
  mapM (λ oe, mapM (λ c, significance M c.1 c.2) (zip oe.1 oe.2))
    (zip observed expected).

(** The scoring part of [cluster], from the comment "Populate arrays of
    observed counts and expected counts" to the significance matrix. The pad
    names, orders and lengths and the sizes of the two bed files are the
    values the first part of [cluster] has computed. *)
Definition cluster_score (qpadnames spadnames : list string)
    (qpadorder spadorder : order) (qpadlen spadlen : gmap string Z)
    (len_qbed len_sbed : Z) (blastfile : list BlastLine) : result Scores :=
  let m := length qpadnames in
  let n := length spadnames in
  let qpadid := padid qpadnames in
  let spadid := padid spadnames in
  st ← count_hits qpadorder spadorder qpadid spadid (zeros m n, 0) blastfile;
  _ ← assert (bool_decide (matrix_sum st.1 = st.2));
  let S := len_qbed * len_sbed in
  expected ← expected_matrix qpadnames spadnames qpadlen spadlen st.2 S;
  _ ← assert (bool_decide (round_int (fsum expected) = st.2));
  let M := Z.of_nat m * Z.of_nat n in
  logmp ← significance_matrix M st.1 expected;
  mret {| observed := st.1; all_dots := st.2;
          expected := expected; logmp := logmp |}.

End cluster.

(** ** Small inputs used in the examples *)

Definition gene (chr name : string) : BedLine :=
  {| seqid := chr; accn := name |}.

(** A genome of two genes on one chromosome. *)
Definition two_genes : order :=
  <[ "a" := (0, gene "chr1" "a") ]> (<[ "b" := (1, gene "chr1" "b") ]> ∅).

(** The pad order of a genome of two genes in one pad. *)
Definition one_pad : order :=
  <[ "a" := (0, gene "q:00000-00001" "a") ]>
    (<[ "b" := (1, gene "q:00000-00001" "b") ]> ∅).

(** One synteny block projected on the axis, as [cluster] builds it:
    [Range("0", start, end, end - start, id)]. *)
Definition block (start stop id : Z) : Range :=
  {| r_seqid := "0"; r_start := start; r_end := stop;
     r_score := stop - start; r_id := id |}.

(** Exact rational arithmetic in the place of the floating-point
    operations of [cluster], to run [cluster_score] on small inputs:
    the quotient, the sum over all cells, and rounding to the nearest
    integer (for the non-negative sums at hand). *)
Definition exact_cell (all_dots alen blen S : Z) : Q :=
  (inject_Z (all_dots * alen * blen) / inject_Z S)%Q.

Definition exact_sum (a : list (list Q)) : Q :=
  foldr (λ row acc, foldr Qplus 0%Q row + acc)%Q 0%Q a.

Definition exact_round (x : Q) : Z := Qfloor (x + (1 # 2))%Q.

(** The event list in the order the sweep is meant to see it, when no
    selected range starts where a scaffold starts: for each scaffold its
    force-left event, the range starts inside it, its force-right event.
    [starts] is the sorted list of range starts. *)
Definition nul_events (starts : list Z) : list (Z * Z) :=
  (λ a, (a, NUL)) <$> starts.

Definition scaffold_events (LEFT RIGHT : Z) (starts : list Z) (x : Z * Z)
    : list (Z * Z) :=
  (x.1, LEFT) :: nul_events (filter (λ a, x.1 < a ≤ x.2) starts)
              ++ [(x.2, RIGHT)].

Definition layout (LEFT RIGHT : Z) (starts : list Z) (extra : list (Z * Z))
    : list (Z * Z) :=
  concat (scaffold_events LEFT RIGHT starts <$> extra).

(** * The other functions of the module *)

(** ** Links between points *)

(** Two points that [synteny_scan] joins when it looks back from one to the
    other: no farther apart than [xdist] in x and [ydist] in y. *)
Definition linked (xdist ydist : Z) (p q : point) : Prop :=
  Z.abs (p.1 - q.1) ≤ xdist ∧ Z.abs (p.2 - q.2) ≤ ydist.

(** Two points held by one group of a Grouper ([Grouper.joined]). *)
Definition same_group (g : list (list point)) (p q : point) : Prop :=
  ∃ s, s ∈ g ∧ p ∈ s ∧ q ∈ s.

(** A chain of links through the points of [s]. *)
Definition chain (xdist ydist : Z) (s : list point) : relation point :=
  rtc (λ u v, u ∈ s ∧ v ∈ s ∧ linked xdist ydist u v).

(** A group made of input points that links hold together: any two of its
    points are joined by a chain of links through the group. *)
Definition linked_group (points : list point) (xdist ydist : Z)
    (s : list point) : Prop :=
  (∀ x, x ∈ s → x ∈ points) ∧ ∀ a b, a ∈ s → b ∈ s → chain xdist ydist s a b.

(** ** The loop shared by group_hits and read_anchors *)

(** Both functions go through a list and append a point under a key for
    some of its items; [entry] tells which key and point an item gives, if
    any. *)
Definition collect {X} (entry : X → option ((string * string) * point))
    (d : chr_pair_points) (l : list X) : chr_pair_points :=
  foldl (λ d x, match entry x with
                | Some (k, v) => append_to d k v
                | None => d
                end) d l.

(** The points that the items of [l] give under the key [k], in order. *)
Definition entries_at {X} (entry : X → option ((string * string) * point))
    (k : string * string) (l : list X) : list point :=
  omap (λ x, match entry x with
             | Some (k', v) => if decide (k' = k) then Some v else None
             | None => None
             end) l.

(** What a row of the anchor file gives. *)
Definition anchor_entry (qorder sorder : order) (row : AnchorRow)
    : option ((string * string) * point) :=
  match row with
  | Defline => None
  | AnchorPair a b =>
      match qorder !! a, sorder !! b with
      | Some (qi0, q0), Some (si0, s0) =>
          Some ((seqid q0, seqid s0), (qi0, si0))
      | _, _ => None
      end
  end.

(** What a hit gives. *)
Definition hit_entry (b : Hit) : option ((string * string) * point) :=
  Some ((qseqid b, sseqid b), (qi b, si b)).

(** ** What a Range of [cluster] says about its block *)

(** The Range that [cluster] makes of one column of a block: it starts at
    the least and ends at the greatest index of the column's accessions, its
    weight is its extent, and every accession of the column is in the
    lookup with an index inside it. *)
Definition spans (o : order) (accns : list string) (r : Range) : Prop :=
  accns ≠ [] ∧
  r_seqid r = "0" ∧ r_score r = r_end r - r_start r ∧ 0 ≤ r_score r ∧
  (∃ a e, a ∈ accns ∧ o !! a = Some (r_start r, e)) ∧
  (∃ a e, a ∈ accns ∧ o !! a = Some (r_end r, e)) ∧
  ∀ a, a ∈ accns → ∃ i e, o !! a = Some (i, e) ∧ r_start r ≤ i ≤ r_end r.

(** The blocks that [iter_blocks] passes on. *)
Definition passed_blocks (minsize : Z) (blocks : list (list (string * string)))
    : list (list (string * string)) :=
  filter (λ lines, minsize ≤ Z.of_nat (length lines)) blocks.

(** The identifiers that [cluster] gives to [n] ranges after the counter has
    reached [id]: [id + 1], [id + 2], ... *)
Definition ids_from (id : Z) (n : nat) : list Z :=
  (λ k, id + 1 + Z.of_nat k) <$> seq 0 n.

(** The shape of a matrix: [m] rows of [n] cells. *)
Definition shape {A} (a : list (list A)) (m n : nat) : Prop :=
  length a = m ∧ Forall (λ row, length row = n) a.

(** A string without a dot. *)
Definition no_dot (s : string) : Prop :=
  "."%char ∉ String.list_ascii_of_string s.

(** ** Keys of read_blast *)

(** The key under which [read_blast] remembers a row: [(query, subject)] as
    read. *)
Definition row_key (b : BlastLine) : string * string := (query b, subject b).

(** A row that [read_blast] passes over in a state with the given seen-set:
    an accession is not in its lookup, or the key was seen. *)
Definition passed_over (qorder sorder : order) (seen : gset (string * string))
    (b : BlastLine) : Prop :=
  qorder !! query b = None ∨ sorder !! subject b = None ∨ row_key b ∈ seen.

(** The hit that [read_blast] makes of a row whose accessions have the
    entries [(qi0, q0)] and [(si0, s0)]. *)
Definition make_hit (is_self : bool) (b : BlastLine) (qi0 : Z) (q0 : BedLine)
    (si0 : Z) (s0 : BedLine) : Hit :=
  if is_self && bool_decide (si0 < qi0)
  then {| line := b; qseqid := seqid s0; sseqid := seqid q0;
          qi := si0; si := qi0 |}
  else {| line := b; qseqid := seqid q0; sseqid := seqid s0;
          qi := qi0; si := si0 |}.

(** ** group_hits *)

(** [group_hits(blasts)]: the points [(b.qi, b.si)] under the key
    [(b.qseqid, b.sseqid)]. *)
Definition group_hits (blasts : list Hit) : chr_pair_points :=
  foldl (λ all_hits b, append_to all_hits (qseqid b, sseqid b) (qi b, si b))
    ∅ blasts.

(** ** batch_scan *)

(** Python's order on pairs of strings, used by [sorted(d.keys())]. *)
Definition key_le (k1 k2 : string * string) : Prop :=
  String.ltb k1.1 k2.1 = true ∨ (k1.1 = k2.1 ∧ String.leb k1.2 k2.2 = true).

#[global] Instance key_le_dec : RelDecision key_le.
Proof. intros k1 k2. unfold key_le. apply _. Defined.

(** [sorted(d.keys())]. *)
Definition sorted_keys (d : chr_pair_points) : list (string * string) :=
  merge_sort key_le (elements (dom d)).

(** [batch_scan(points, xdist, ydist, N)]. *)
Definition batch_scan (points : list Hit) (xdist ydist N : Z)
    : list (list point) :=
  let chr_pair_points := group_hits points in
  foldl (λ clusters chr_pair,
      let points := default [] (chr_pair_points !! chr_pair) in
      clusters ++ (synteny_scan points xdist ydist N).1)
    [] (sorted_keys chr_pair_points).

(** ** liftover *)

(** The loop of [liftover] over the chromosome pairs that have anchors; the
    result lists the [(qi, si)] of the lines it prints. A hit array built
    from pairs has two columns. *)
Definition liftover_pairs (filtered_blast : list Hit)
    (all_anchors : chr_pair_points) (dist : Z) : list point :=
  let all_hits := group_hits filtered_blast in
  foldl (λ out chr_pair,
      let hits := default [] (all_hits !! chr_pair) in
      let anchors := default [] (all_anchors !! chr_pair) in
      if decide (hits = []) then out                         (* continue *)
      else
        out ++ (row_xy <$>
                synteny_liftover
                  ((λ p, {| row_xy := p; row_rest := [] |}) <$> hits)
                  anchors dist))
    [] (sorted_keys all_anchors).

(** [liftover]: [read_blast], [group_hits], [read_anchors] and the loop. *)
Definition liftover (blast_file : list BlastLine)
    (anchor_file : list AnchorRow) (qorder sorder : order) (is_self : bool)
    (dist : Z) : list point :=
  liftover_pairs (read_blast blast_file qorder sorder is_self)
    (read_anchors anchor_file qorder sorder) dist.

(** ** write_PAD_bed *)

(** [l[j]] on a list, for an index that is not negative. *)
Definition index {A} (l : list A) (j : nat) : result A :=
  match l !! j with
  | Some x => inr x
  | None => raise IndexError
  end.

(** [s.zfill(width)] for a string of digits. *)
Definition zfill (width : nat) (s : string) : string :=
  String.concat "" (replicate (width - String.length s) "0") +:+ s.

(** The format [{:05d}]: at least five characters, zeros after the sign. *)
Definition format_05d (n : Z) : string :=
  if decide (n < 0) then "-" +:+ zfill 4 (pretty (Z.abs n))
  else zfill 5 (pretty n).

(** ["{0}:{1:05d}-{2:05d}".format(prefix, a, b)]. *)
Definition padname (prefix : string) (ab : Z * Z) : string :=
  prefix +:+ ":" +:+ format_05d ab.1 +:+ "-" +:+ format_05d ab.2.

(** A line of the pad bed file: pad name, [i], [i + 1], accession. *)
Record PadLine : Type :=
  { pl_pad : string; pl_start : Z; pl_end : Z; pl_accn : string }.

(** The loop [for i, x in enumerate(bed)] with its pointer [j] into the
    pads. *)
Fixpoint pad_loop (pads : list (Z * Z)) (padnames : list string) (i : Z)
    (j : nat) (bed : list BedLine) : result (list PadLine) :=
  match bed with
  | [] => mret []
  | x :: bed' =>
      ab ← index pads j;
      j' ← (if decide (ab.2 < i)
            then (_ ← index pads (S j); mret (S j))
            else mret j);
      name ← index padnames j';
      rest ← pad_loop pads padnames (i + 1) j' bed';
      mret ({| pl_pad := name; pl_start := i; pl_end := i + 1;
               pl_accn := accn x |} :: rest)
  end.

(** [write_PAD_bed(bedfile, prefix, pads, bed)]: the lines written, and the
    returned [(npads, padnames)]. *)
Definition write_PAD_bed (prefix : string) (pads : list (Z * Z))
    (bed : list BedLine) : result (list PadLine * (nat * list string)) :=
  let padnames := padname prefix <$> pads in
  lines ← pad_loop pads padnames 0 0%nat bed;
  mret (lines, (length pads, padnames)).

(** ** cluster: the ranges of the anchor blocks *)

(** The unpacking [q, s = ...] of the transposed lines that [iter_blocks]
    yields: the two columns of a block; it raises on a block without
    lines. *)
Definition unzip_block (lines : list (string * string))
    : result (list string * list string) :=
  match lines with
  | [] => raise ValueError
  | _ => mret (lines.*1, lines.*2)
  end.

(** [[order[x][0] for x in accns]]. *)
Definition indices (o : order) (accns : list string) : result (list Z) :=
  mapM (λ x, e ← getitem o x; mret e.1) accns.

(** [min(l)] and [max(l)]; they raise on an empty list. *)
Definition py_min (l : list Z) : result Z :=
  match l with
  | [] => raise ValueError
  | x :: l' => mret (foldl Z.min x l')
  end.

Definition py_max (l : list Z) : result Z :=
  match l with
  | [] => raise ValueError
  | x :: l' => mret (foldl Z.max x l')
  end.

(** The loop [for q, s in ac.iter_blocks(minsize=minsize)] of [cluster]:
    [iter_blocks] passes the blocks of at least [minsize] lines, and each
    gets one Range on either axis. [id] is the counter before the loop. *)
Fixpoint block_ranges (qorder sorder : order) (minsize : Z) (id : Z)
    (blocks : list (list (string * string)))
    : result (list Range * list Range) :=
  match blocks with
  | [] => mret ([], [])
  | lines :: blocks' =>
      if decide (Z.of_nat (length lines) < minsize)
      then block_ranges qorder sorder minsize id blocks'
      else
        qs ← unzip_block lines;
        q ← indices qorder qs.1;
        s ← indices sorder qs.2;
        minq ← py_min q; maxq ← py_max q;
        mins ← py_min s; maxs ← py_max s;
        let id := id + 1 in
        let qr := {| r_seqid := "0"; r_start := minq; r_end := maxq;
                     r_score := maxq - minq; r_id := id |} in
        let sr := {| r_seqid := "0"; r_start := mins; r_end := maxs;
                     r_score := maxs - mins; r_id := id |} in
        rest ← block_ranges qorder sorder minsize id blocks';
        mret (qr :: rest.1, sr :: rest.2)
  end.

(** ** get_blocks *)

(** A line of the blast bed file of [breakpoint]: marker accession, start,
    end. *)
Record MarkerLine : Type := { m_accn : string; m_start : Z; m_end : Z }.

(** The part of [s] before its last dot, if it has a dot. *)
Fixpoint before_last_dot (s : string) : option string :=
  match s with
  | EmptyString => None
  | String c s' =>
      match before_last_dot s' with
      | Some t => Some (String c t)
      | None => if decide (c = "."%char) then Some EmptyString else None
      end
  end.

(** [s.rsplit(".", 1)[0]]. *)
Definition rsplit1 (s : string) : string := default s (before_last_dot s).

(** The loop of [get_blocks] that collects the points. *)
Fixpoint marker_points (bs : list MarkerLine) (o : order) : list point :=
  match bs with
  | [] => []
  | b :: bs' =>
      let accn := rsplit1 (m_accn b) in
      match o !! accn with
      | None => marker_points bs' o                          (* continue *)
      | Some (x, xx) =>
          let y := (m_start b + m_end b) `div` 2 in
          (x, y) :: marker_points bs' o
      end
  end.

(** [get_blocks(scaffold, bs, order, xdist, ydist, N)]. *)
Definition get_blocks (bs : list MarkerLine) (o : order) (xdist ydist N : Z)
    : list (list point) :=
  (synteny_scan (marker_points bs o) xdist ydist N).1.

(** * Properties *)

(** The scenario of the specification. *)
Example synteny_scan_example :
  (synteny_scan [(50,50); (3,3); (1,1); (2,2)] 5 5 2).1
  = [[(1,1); (2,2); (3,3)]].
Proof. vm_compute. reflexivity. Qed.

Example range_chain_example :
  r_id <$> (range_chain
    [ {| r_seqid := "0"; r_start := 0; r_end := 10; r_score := 10; r_id := 1 |};
      {| r_seqid := "0"; r_start := 5; r_end := 15; r_score := 10; r_id := 2 |};
      {| r_seqid := "0"; r_start := 20; r_end := 30; r_score := 10; r_id := 3 |}
    ]).1 = [1; 3].
Proof. vm_compute. reflexivity. Qed.

(** ** Sorting *)

Lemma py_sort_Sorted (l : list point) : Sorted point_le (py_sort l).
Proof. apply (Sorted_merge_sort point_le). Qed.

Lemma py_sort_Permutation (l : list point) : py_sort l ≡ₚ l.
Proof. apply (merge_sort_Permutation point_le). Qed.

(** A sorted rearrangement of a list of points is unique: whatever algorithm
    [list.sort] runs, it returns [py_sort l]. *)
Lemma py_sort_unique (l l' : list point) :
  Sorted point_le l' → l' ≡ₚ l → l' = py_sort l.
Proof.
  intros Hs Hp.
  apply (Sorted_unique point_le); [done | apply py_sort_Sorted |].
  by rewrite Hp, py_sort_Permutation.
Qed.

Lemma py_sort_perm_eq (l1 l2 : list point) :
  l1 ≡ₚ l2 → py_sort l1 = py_sort l2.
Proof.
  intros Hp. apply py_sort_unique; [apply py_sort_Sorted |].
  by rewrite py_sort_Permutation.
Qed.

Lemma elem_of_py_sort (p : point) (l : list point) : p ∈ py_sort l ↔ p ∈ l.
Proof. by rewrite py_sort_Permutation. Qed.

Lemma _score_perm (c1 c2 : list point) : c1 ≡ₚ c2 → _score c1 = _score c2.
Proof. intros Hp. unfold _score. by rewrite Hp. Qed.

Lemma _score_py_sort (c : list point) : _score (py_sort c) = _score c.
Proof. apply _score_perm, py_sort_Permutation. Qed.

(** ** The groups of the Grouper are disjoint and non-empty *)

Lemma elem_of_concat (p : point) (gs : list (list point)) :
  p ∈ concat gs ↔ ∃ g, g ∈ gs ∧ p ∈ g.
Proof.
  induction gs as [|s gs IH]; simpl.
  - split; [by intros ?%elem_of_nil | by intros (g & ?%elem_of_nil & _)].
  - rewrite elem_of_app, IH. split.
    + intros [Hp|(g & Hg & Hp)]; [exists s | exists g];
        (split; [| done]); [apply list_elem_of_here | by apply list_elem_of_further].
    + intros (g & Hg & Hp). apply elem_of_cons in Hg as [->|Hg]; eauto.
Qed.

Lemma find_None (g : Grouper.t) (a : point) :
  Grouper.find g a = None ↔ a ∉ concat g.
Proof.
  induction g as [|s g IH]; simpl.
  - split; [intros _; apply not_elem_of_nil | done].
  - rewrite elem_of_app. destruct (decide (a ∈ s)) as [Hin|Hout].
    + split; [done | intros H; destruct H; by left].
    + destruct (Grouper.find g a) as [i|] eqn:E; simpl.
      * split; [done |]. intros H. exfalso.
        assert (a ∉ concat g) as H' by (intros ?; apply H; by right).
        apply IH in H'. done.
      * split; [| done]. intros _ [?|?]; [done |]. by apply IH.
Qed.

Lemma find_Some (g : Grouper.t) (a : point) (i : nat) :
  Grouper.find g a = Some i → ∃ s, g !! i = Some s ∧ a ∈ s.
Proof.
  revert i. induction g as [|s g IH]; intros i; simpl; [done |].
  destruct (decide (a ∈ s)) as [Hin|Hout].
  - intros [= <-]. by exists s.
  - destruct (Grouper.find g a) as [j|]; simpl; [| done].
    intros [= <-]. by apply IH.
Qed.

Lemma concat_alter_app (g : list (list point)) (i : nat) (s x : list point) :
  g !! i = Some s → concat (alter (λ s, s ++ x) i g) ≡ₚ concat g ++ x.
Proof.
  revert i. induction g as [|s' g IH]; intros [|i]; simpl; try done.
  - intros _. rewrite <-!(assoc_L (++)). f_equiv. apply Permutation_app_comm.
  - intros Hi. rewrite (IH _ Hi). by rewrite (assoc_L (++)).
Qed.

Lemma concat_delete (g : list (list point)) (i : nat) (s : list point) :
  g !! i = Some s → concat g ≡ₚ s ++ concat (delete i g).
Proof.
  revert i. induction g as [|s' g IH]; intros [|i]; simpl; try done.
  - by intros [= ->].
  - intros Hi. rewrite (IH _ Hi). rewrite !(assoc_L (++)). f_equiv.
    apply Permutation_app_comm.
Qed.

Lemma grouper_wf_empty : grouper_wf Grouper.empty.
Proof. split; [apply NoDup_nil_2 | apply Forall_nil_2]. Qed.

Lemma touch_wf (g : Grouper.t) (a : point) :
  grouper_wf g → grouper_wf (Grouper.touch g a).
Proof.
  intros [Hnd Hne]. unfold Grouper.touch.
  destruct (Grouper.find g a) eqn:E; [done |].
  apply find_None in E. split.
  - rewrite concat_app. simpl.
    apply NoDup_app. split_and!; [done | | apply NoDup_singleton].
    intros x Hx ->%list_elem_of_singleton. done.
  - apply Forall_app. split; [done |]. by apply Forall_singleton.
Qed.

Lemma Forall_nonempty_alter (g : list (list point)) (i : nat)
    (x : list point) :
  Forall (λ s, s ≠ []) g → Forall (λ s, s ≠ []) (alter (λ s, s ++ x) i g).
Proof.
  intros H. apply Forall_alter; [done |].
  intros s _ Hs Hnil. apply app_eq_nil in Hnil. by destruct Hnil.
Qed.

Lemma merge_wf (g : Grouper.t) (ia ib : nat) (sa sb : list point) :
  grouper_wf g → ia ≠ ib → g !! ia = Some sa → g !! ib = Some sb →
  grouper_wf (delete ib (alter (λ s, s ++ sb) ia g)).
Proof.
  intros [Hnd Hne] Hneq Ha Hb. split.
  - assert (alter (λ s, s ++ sb) ia g !! ib = Some sb) as Hb'
      by (by rewrite list_lookup_alter_ne).
    pose proof (concat_delete _ _ _ Hb') as H1.
    pose proof (concat_alter_app g ia sa sb Ha) as H2.
    rewrite H2 in H1.
    rewrite (Permutation_app_comm (concat g) sb) in H1.
    apply Permutation_app_inv_l in H1. by rewrite <-H1.
  - apply Forall_delete. by apply Forall_nonempty_alter.
Qed.

Lemma join_wf (g : Grouper.t) (a b : point) :
  grouper_wf g → grouper_wf (Grouper.join g a b).
Proof.
  intros Hwf. unfold Grouper.join.
  pose proof (touch_wf g a Hwf) as Hwf1.
  set (g1 := Grouper.touch g a) in *.
  destruct (Grouper.find g1 a) as [ia|] eqn:Ea; [| done].
  destruct (find_Some _ _ _ Ea) as (sa & Hsa & Hina).
  destruct (Grouper.find g1 b) as [ib|] eqn:Eb.
  - destruct (find_Some _ _ _ Eb) as (sb & Hsb & Hinb).
    destruct (decide (ia = ib)) as [|Hneq]; [done |].
    rewrite Hsa, Hsb. simpl.
    destruct (decide (length sa < length sb)%nat).
    + by apply (merge_wf g1 ib ia sb sa).
    + by apply (merge_wf g1 ia ib sa sb).
  - apply find_None in Eb. destruct Hwf1 as [Hnd Hne]. split.
    + rewrite (concat_alter_app g1 ia sa [b] Hsa).
      apply NoDup_app. split_and!; [done | | apply NoDup_singleton].
      intros x Hx ->%list_elem_of_singleton. done.
    + by apply Forall_nonempty_alter.
Qed.

Lemma elem_of_delete_ne (g : list (list point)) (i j : nat)
    (s : list point) :
  g !! i = Some s → i ≠ j → s ∈ delete j g.
Proof.
  intros Hi Hne. apply list_elem_of_lookup.
  destruct (decide (i < j)%nat).
  - exists i. by rewrite list_lookup_delete_lt.
  - exists (pred i). rewrite list_lookup_delete_ge by lia.
    by replace (S (pred i)) with i by lia.
Qed.

(** After [join a b] the two points are in one group. *)
Lemma join_same_group (g : Grouper.t) (a b : point) :
  ∃ s, s ∈ Grouper.join g a b ∧ a ∈ s ∧ b ∈ s.
Proof.
  unfold Grouper.join. set (g1 := Grouper.touch g a).
  assert (∃ ia, Grouper.find g1 a = Some ia) as [ia Ea].
  { destruct (Grouper.find g1 a) as [ia|] eqn:E; [by eexists |].
    apply find_None in E. exfalso. apply E.
    unfold g1, Grouper.touch.
    destruct (Grouper.find g a) as [i|] eqn:E'.
    - apply find_Some in E' as (s & Hs & Ha). apply elem_of_concat.
      exists s. split; [by eapply list_elem_of_lookup_2 | done].
    - rewrite concat_app, elem_of_app. right. apply list_elem_of_here. }
  rewrite Ea. destruct (find_Some _ _ _ Ea) as (sa & Hsa & Hina).
  destruct (Grouper.find g1 b) as [ib|] eqn:Eb.
  - destruct (find_Some _ _ _ Eb) as (sb & Hsb & Hinb).
    destruct (decide (ia = ib)) as [->|Hneq].
    + exists sa. split_and!; [by eapply list_elem_of_lookup_2 | done |].
      congruence.
    + rewrite Hsa, Hsb. simpl.
      destruct (decide (length sa < length sb)%nat).
      * exists (sb ++ sa). split_and!.
        -- apply (elem_of_delete_ne _ ib); [| done].
           by rewrite list_lookup_alter_eq, Hsb.
        -- apply elem_of_app. by right.
        -- apply elem_of_app. by left.
      * exists (sa ++ sb). split_and!.
        -- apply (elem_of_delete_ne _ ia); [| done].
           by rewrite list_lookup_alter_eq, Hsa.
        -- apply elem_of_app. by left.
        -- apply elem_of_app. by right.
  - exists (sa ++ [b]). split_and!.
    + apply (list_elem_of_lookup_2 _ ia).
      by rewrite list_lookup_alter_eq, Hsa.
    + apply elem_of_app. by left.
    + apply elem_of_app. right. apply list_elem_of_here.
Qed.

Lemma look_back_wf (xdist ydist : Z) (p : point) (prev : list point)
    (g : Grouper.t) :
  grouper_wf g → grouper_wf (look_back xdist ydist g p prev).
Proof.
  revert g. induction prev as [|q prev IH]; intros g Hwf; simpl; [done |].
  repeat case_decide; auto using join_wf.
Qed.

Lemma scan_loop_wf (xdist ydist : Z) (rest visited : list point)
    (g : Grouper.t) :
  grouper_wf g → grouper_wf (scan_loop xdist ydist g visited rest).
Proof.
  revert g visited. induction rest as [|p rest IH]; intros g visited Hwf;
    simpl; [done |].
  apply IH. by apply look_back_wf.
Qed.

Lemma scan_groups_wf (points : list point) (xdist ydist : Z) :
  grouper_wf (scan_groups points xdist ydist).
Proof. apply scan_loop_wf, grouper_wf_empty. Qed.

(** Every union-find group handed to [_score] has a point. *)
Lemma scan_groups_nonempty (points : list point) (xdist ydist : Z)
    (g : list point) :
  g ∈ scan_groups points xdist ydist → g ≠ [].
Proof.
  intros Hg. destruct (scan_groups_wf points xdist ydist) as [_ Hne].
  rewrite Forall_forall in Hne. by apply Hne.
Qed.

(** Two groups that share a point are the same group. *)
Lemma groups_disjoint (gs : list (list point)) (g g' : list point)
    (p : point) :
  NoDup (concat gs) → g ∈ gs → g' ∈ gs → p ∈ g → p ∈ g' → g = g'.
Proof.
  induction gs as [|s gs IH]; simpl; [by intros _ ?%elem_of_nil |].
  intros (Hs & Hdisj & Hrest)%NoDup_app Hg Hg' Hp Hp'.
  apply elem_of_cons in Hg as [->|Hg]; apply elem_of_cons in Hg' as [->|Hg'].
  - done.
  - exfalso. apply (Hdisj p Hp). apply elem_of_concat. eauto.
  - exfalso. apply (Hdisj p Hp'). apply elem_of_concat. eauto.
  - by apply IH.
Qed.

(** ** synteny_scan: retained clusters *)

Lemma synteny_scan_clusters (points : list point) (xdist ydist N : Z)
    (c : list point) :
  c ∈ (synteny_scan points xdist ydist N).1 ↔
  ∃ g, g ∈ scan_groups points xdist ydist ∧ N ≤ _score g ∧ c = py_sort g.
Proof.
  unfold synteny_scan, scan_groups. simpl. rewrite list_elem_of_fmap.
  split.
  - intros (g & -> & (Hs & Hg)%list_elem_of_filter). eauto.
  - intros (g & Hg & Hs & ->). exists g. split; [done |].
    by apply list_elem_of_filter.
Qed.

(** C1. For every positive [N], every cluster returned by [synteny_scan] is a
    (sorted) union-find group whose score, the minimum of the number of
    distinct x-coordinates and of distinct y-coordinates, is at least [N];
    a union-find group with a score below [N] is not in the output, and none
    of its points is in any returned cluster: it is dropped, not merged. *)
Theorem synteny_scan_score_invariant (points : list point)
    (xdist ydist N : Z) :
  0 < N →
  ((∀ c, c ∈ (synteny_scan points xdist ydist N).1 →
      N ≤ _score c ∧
      ∃ g, g ∈ scan_groups points xdist ydist ∧ c = py_sort g) ∧
   (∀ g, g ∈ scan_groups points xdist ydist → _score g < N →
      (py_sort g ∉ (synteny_scan points xdist ydist N).1) ∧
      ∀ c p, c ∈ (synteny_scan points xdist ydist N).1 → p ∈ g → p ∉ c)).
Proof.
  intros _. split.
  - intros c (g & Hg & Hs & ->)%synteny_scan_clusters.
    rewrite _score_py_sort. eauto.
  - intros g Hg Hlow. split.
    + intros (g' & Hg' & Hs & Heq)%synteny_scan_clusters.
      apply (f_equal _score) in Heq. rewrite !_score_py_sort in Heq.
      lia.
    + intros c p Hc Hp Hp'.
      apply synteny_scan_clusters in Hc as (g' & Hg' & Hs & ->).
      rewrite elem_of_py_sort in Hp'.
      destruct (scan_groups_wf points xdist ydist) as [Hnd _].
      assert (g = g') as -> by exact (groups_disjoint _ g g' p Hnd Hg Hg' Hp Hp').
      lia.
Qed.

Lemma synteny_scan_score_invariant_witness :
  0 < 2 ∧
  ∀ c, c ∈ (synteny_scan [(50,50); (3,3); (1,1); (2,2)] 5 5 2).1 →
       2 ≤ _score c.
Proof.
  split; [lia |].
  intros c Hc.
  apply (synteny_scan_score_invariant [(50,50); (3,3); (1,1); (2,2)] 5 5 2);
    [lia | exact Hc].
Defined.

(** An isolated point is never joined, so it is in no group at all, whatever
    [N] is. *)
Example synteny_scan_isolated :
  scan_groups [(1,1); (2,2); (3,3); (50,50)] 5 5
  = [[(2,2); (1,1); (3,3)]].
Proof. vm_compute. reflexivity. Qed.

(** ** synteny_scan: the order of the input *)

(** C9. Two input lists that are permutations of each other lead to the same
    union-find groups and to the same list of retained clusters, for fixed
    [xdist], [ydist] and [N]. *)
Theorem synteny_scan_order_invariant (points1 points2 : list point)
    (xdist ydist N : Z) :
  points1 ≡ₚ points2 →
  scan_groups points1 xdist ydist = scan_groups points2 xdist ydist ∧
  (synteny_scan points1 xdist ydist N).1
  = (synteny_scan points2 xdist ydist N).1.
Proof.
  intros Hp. unfold scan_groups, synteny_scan. simpl.
  by rewrite (py_sort_perm_eq _ _ Hp).
Qed.

Lemma synteny_scan_order_invariant_witness :
  [(3,3); (1,1); (2,2)] ≡ₚ [(1,1); (2,2); (3,3)] ∧
  (synteny_scan [(3,3); (1,1); (2,2)] 5 5 2).1
  = (synteny_scan [(1,1); (2,2); (3,3)] 5 5 2).1.
Proof.
  assert ([(3,3); (1,1); (2,2)] ≡ₚ [(1,1); (2,2); (3,3)]) as Hp.
  { change ([(3,3)] ++ [(1,1); (2,2)] ≡ₚ [(1,1); (2,2)] ++ [(3,3)]).
    apply Permutation_app_comm. }
  split; [exact Hp |].
  exact (proj2 (synteny_scan_order_invariant _ _ 5 5 2 Hp)).
Defined.

(** ** synteny_scan: effect on the caller's list *)

(** C10. After the call the caller's list is sorted ascending by [(x, y)],
    and it holds the same points as before, each as many times. *)
Theorem synteny_scan_sorts_caller_list (points : list point)
    (xdist ydist N : Z) :
  Sorted point_le (synteny_scan points xdist ydist N).2 ∧
  (synteny_scan points xdist ydist N).2 ≡ₚ points.
Proof.
  unfold synteny_scan. simpl.
  split; [apply py_sort_Sorted | apply py_sort_Permutation].
Qed.

(** The caller observes the reordering. *)
Example synteny_scan_reorders :
  (synteny_scan [(2,7); (1,9); (1,3)] 20 20 6).2 = [(1,3); (1,9); (2,7)].
Proof. vm_compute. reflexivity. Qed.

(** ** read_blast *)

Lemma read_blast_row_skips (qorder sorder : order) (is_self : bool)
    (st : gset (string * string) * list Hit) (b : BlastLine) :
  qorder !! query b = None ∨ sorder !! subject b = None →
  read_blast_row qorder sorder is_self st b = st.
Proof.
  intros Hmiss. unfold read_blast_row. destruct st as [seen filtered].
  destruct (qorder !! query b) as [[qi0 q0]|]; [| done].
  destruct (sorder !! subject b) as [[si0 s0]|]; [| done].
  by destruct Hmiss.
Qed.

Lemma read_blast_row_self_le (qorder sorder : order)
    (st : gset (string * string) * list Hit) (b : BlastLine) :
  Forall (λ h, qi h ≤ si h) st.2 →
  Forall (λ h, qi h ≤ si h) (read_blast_row qorder sorder true st b).2.
Proof.
  intros Hst. unfold read_blast_row. destruct st as [seen filtered].
  destruct (qorder !! query b) as [[qi0 q0]|]; [| done].
  destruct (sorder !! subject b) as [[si0 s0]|]; [| done].
  case_decide; [done |]. simpl.
  case_bool_decide; simpl; (apply Forall_app; split; [done |]);
    apply Forall_singleton; simpl; lia.
Qed.

(** In a self comparison every retained hit has [qi <= si]. *)
Lemma read_blast_self_canonical (blast_file : list BlastLine)
    (qorder sorder : order) (h : Hit) :
  h ∈ read_blast blast_file qorder sorder true → qi h ≤ si h.
Proof.
  unfold read_blast.
  assert (∀ st, Forall (λ h, qi h ≤ si h) st.2 →
    Forall (λ h, qi h ≤ si h)
      (foldl (read_blast_row qorder sorder true) st blast_file).2) as Hfold.
  { induction blast_file as [|b rows IH]; intros st Hst; simpl; [done |].
    apply IH. by apply read_blast_row_self_le. }
  intros Hh. specialize (Hfold (∅, []) (Forall_nil_2 _)).
  rewrite Forall_forall in Hfold. by apply Hfold.
Qed.

(** C4. A self comparison that lists a pair in both directions, [a b] and
    [b a], keeps both rows: the seen-set is consulted with the key as read,
    before the roles are swapped, so the unordered pair {a, b} comes out
    twice, both times as [(qi, si) = (0, 1)]. *)
Theorem read_blast_self_keeps_reciprocal_rows :
  (λ h, (qi h, si h)) <$>
    read_blast [ {| query := "a"; subject := "b" |};
                 {| query := "b"; subject := "a" |} ] two_genes two_genes true
  = [(0, 1); (0, 1)].
Proof. vm_compute. reflexivity. Qed.

(** A row repeated as read is dropped by the seen-set. *)
Example read_blast_drops_repeated_row :
  (λ h, (qi h, si h)) <$>
    read_blast [ {| query := "a"; subject := "b" |};
                 {| query := "a"; subject := "b" |} ] two_genes two_genes true
  = [(0, 1)].
Proof. vm_compute. reflexivity. Qed.

(** ** Accessions absent from the lookup *)

Lemma read_anchors_row_skips (qorder sorder : order)
    (all_anchors : chr_pair_points) (a b : string) :
  qorder !! a = None ∨ sorder !! b = None →
  read_anchors_row qorder sorder all_anchors (AnchorPair a b) = all_anchors.
Proof.
  intros Hmiss. simpl.
  destruct (qorder !! a) as [[qi0 q0]|]; [| done].
  destruct (sorder !! b) as [[si0 s0]|]; [| done].
  by destruct Hmiss.
Qed.

(** The counting loop of [cluster] has no such test: a missing accession
    raises. *)
Lemma count_row_raises (qpadorder spadorder : order)
    (qpadid spadid : gmap string nat) (st : list (list Z) * Z)
    (b : BlastLine) :
  qpadorder !! query b = None →
  count_row qpadorder spadorder qpadid spadid st b = inl KeyError.
Proof.
  intros Hmiss. unfold count_row, getitem. destruct st as [obs dots].
  by rewrite Hmiss.
Qed.

(** C8. [read_blast] passes over a row whose accession is not in the lookup,
    but the hit counting of [cluster] stops with a KeyError on the same
    row. *)
Theorem cluster_raises_on_unknown_accession (F : Type)
    (expected_cell : Z → Z → Z → Z → F) (fsum : list (list F) → F)
    (round_int : F → Z) (significance : Z → Z → F → result F) :
  read_blast [ {| query := "zz"; subject := "b" |} ] two_genes two_genes false
  = [] ∧
  cluster_score F expected_cell fsum round_int significance
    ["q:00000-00001"] ["q:00000-00001"] one_pad one_pad
    {[ "q:00000-00001" := 2 ]} {[ "q:00000-00001" := 2 ]} 2 2
    [ {| query := "zz"; subject := "b" |} ]
  = inl KeyError.
Proof. split; vm_compute; reflexivity. Qed.

(** ** synteny_liftover *)

(** What the scan returns: the answer so far when no data point is closer
    than the bound, and otherwise a nearest data point, with its distance and
    its index. *)
Lemma query_scan_spec (x : point) (data : list point) (i : nat)
    (best : option Z * nat) (upper : Z) :
  (cKDTree.query_scan x i data best upper = best ∧
   Forall (λ a, upper ≤ l1_dist a x) data) ∨
  (∃ j a,
     cKDTree.query_scan x i data best upper = (Some (l1_dist a x), (i + j)%nat) ∧
     data !! j = Some a ∧ l1_dist a x < upper ∧
     Forall (λ a', l1_dist a x ≤ l1_dist a' x) data).
Proof.
  revert i best upper.
  induction data as [|a data IH]; intros i best upper.
  - left. split; [done | apply Forall_nil_2].
  - cbn [cKDTree.query_scan].
    destruct (decide (l1_dist a x < upper)) as [Hd|Hd].
    + right.
      destruct (IH (S i) (Some (l1_dist a x), i) (l1_dist a x))
        as [[-> Hall]|(j & a2 & -> & Hj & Hlt & Hall)].
      * exists 0%nat, a. rewrite Nat.add_0_r.
        split_and!; [done | done | done |].
        apply Forall_cons. split; [lia | done].
      * exists (S j), a2. rewrite Nat.add_succ_r.
        split_and!; [done | done | lia |].
        apply Forall_cons. split; [lia | done].
    + destruct (IH (S i) best upper)
        as [[-> Hall]|(j & a2 & -> & Hj & Hlt & Hall)].
      * left. split; [done |]. apply Forall_cons. split; [lia | done].
      * right. exists (S j), a2. rewrite Nat.add_succ_r.
        split_and!; [done | done | done |].
        apply Forall_cons. split; [lia | done].
Qed.

(** The query answers with a nearest anchor when one is closer than the
    bound. *)
Lemma query_nearest (anchors : list point) (x : point) (dist d : Z)
    (idx : nat) :
  cKDTree.query anchors x dist = (Some d, idx) →
  ∃ a, anchors !! idx = Some a ∧ l1_dist a x = d ∧ d < dist ∧
       ∀ a', a' ∈ anchors → d ≤ l1_dist a' x.
Proof.
  unfold cKDTree.query.
  destruct (query_scan_spec x anchors 0 (None, length anchors) dist)
    as [[-> _]|(j & a & -> & Hj & Hlt & Hall)]; [done |].
  intros [= <- <-]. exists a. split_and!; [done | done | done |].
  by apply Forall_forall.
Qed.

(** [idx == tree.n] tells exactly that no anchor is closer than the bound. *)
Lemma query_missing (anchors : list point) (x : point) (dist : Z) :
  (cKDTree.query anchors x dist).2 ≠ length anchors ↔
  Exists (λ a, l1_dist a x < dist) anchors.
Proof.
  unfold cKDTree.query.
  destruct (query_scan_spec x anchors 0 (None, length anchors) dist)
    as [[-> Hall]|(j & a & -> & Hj & Hlt & Hall)]; simpl.
  - split; [done |]. intros (a & Ha & Hlt)%Exists_exists.
    rewrite Forall_forall in Hall. specialize (Hall a Ha). lia.
  - split.
    + intros _. apply Exists_exists. exists a.
      split; [by eapply list_elem_of_lookup_2 | done].
    + intros _. apply lookup_lt_Some in Hj. lia.
Qed.

(** C5 as stated fails on the boundary: an anchor at L1 distance exactly
    [dist] of the hit does not make the hit come out. *)
Lemma synteny_liftover_excludes_boundary :
  let hit := {| row_xy := (0, 0); row_rest := [] |} in
  let anchors := [(0, 1)] in
  anchors ≠ [] ∧ 0 ≤ 1 ∧
  (∃ a, a ∈ anchors ∧ l1_dist a (row_xy hit) ≤ 1) ∧
  hit ∉ synteny_liftover [hit] anchors 1.
Proof.
  simpl. split_and!; [done | lia | | ].
  - exists (0, 1). split; [apply list_elem_of_here | by vm_compute].
  - vm_compute. apply not_elem_of_nil.
Qed.

(** C5, amended. For a non-empty anchor set and a non-negative [dist], a hit
    is yielded if and only if some anchor lies at an L1 distance strictly
    below [dist] of its [(qi, si)] point; the yielded hits are the input
    sequence with the other hits removed, so they keep their relative
    order. *)
Theorem synteny_liftover_spec (points : list Row) (anchors : list point)
    (dist : Z) :
  anchors ≠ [] → 0 ≤ dist →
  synteny_liftover points anchors dist
  = filter (λ r, Exists (λ a, l1_dist a (row_xy r) < dist) anchors) points
  ∧ ∀ r, r ∈ synteny_liftover points anchors dist ↔
         r ∈ points ∧ ∃ a, a ∈ anchors ∧ l1_dist a (row_xy r) < dist.
Proof.
  intros _ _.
  assert (synteny_liftover points anchors dist
    = filter (λ r, Exists (λ a, l1_dist a (row_xy r) < dist) anchors) points)
    as Heq.
  { unfold synteny_liftover. apply list_filter_iff.
    intros r. apply query_missing. }
  split; [done |].
  intros r. rewrite Heq, list_elem_of_filter, Exists_exists. tauto.
Qed.

Lemma synteny_liftover_spec_witness :
  [(0, 1)] ≠ [] ∧ 0 ≤ 2 ∧
  synteny_liftover
    [ {| row_xy := (5, 5); row_rest := [] |};
      {| row_xy := (0, 0); row_rest := [] |} ] [(0, 1)] 2
  = filter (λ r, Exists (λ a, l1_dist a (row_xy r) < 2) [(0, 1)])
      [ {| row_xy := (5, 5); row_rest := [] |};
        {| row_xy := (0, 0); row_rest := [] |} ].
Proof.
  split_and!; [done | lia |].
  apply (synteny_liftover_spec
    [ {| row_xy := (5, 5); row_rest := [] |};
      {| row_xy := (0, 0); row_rest := [] |} ] [(0, 1)] 2); [done | lia].
Defined.

(** ** get_segments *)

Section sweep_facts.

Variables LEFT RIGHT : Z.

(** A short range start is passed over: nothing is emitted and the left edge
    stays. *)
Lemma sweep_short_span (minsegment current_left a : Z)
    (rest : list (Z * Z)) :
  LEFT ≠ NUL → RIGHT ≠ NUL → a - current_left < minsegment →
  sweep LEFT RIGHT minsegment current_left ((a, NUL) :: rest)
  = sweep LEFT RIGHT minsegment current_left rest.
Proof.
  intros HL HR Hshort. cbn [sweep].
  destruct (decide (NUL = LEFT)) as [|_]; [done |].
  destruct (decide (NUL = RIGHT)) as [|_]; [done |].
  destruct (decide (NUL = NUL)) as [_|]; [| done].
  by destruct (decide (a - current_left < minsegment)).
Qed.

(** Every emitted pair is either at least [minsegment] long or was emitted
    at a [RIGHT] event. *)
Lemma sweep_segments (minsegment : Z) (endpoints : list (Z * Z))
    (current_left : Z) (seg : Z * Z) :
  seg ∈ sweep LEFT RIGHT minsegment current_left endpoints →
  minsegment ≤ seg.2 + 1 - seg.1 ∨ (seg.2, RIGHT) ∈ endpoints.
Proof.
  revert current_left.
  induction endpoints as [|[a ai] rest IH]; intros current_left; simpl.
  - by intros ?%elem_of_nil.
  - set (cl := if decide (ai = LEFT) then a else current_left).
    destruct (decide (ai = RIGHT)) as [->|HR].
    + intros [->|Hin]%elem_of_cons.
      * right. simpl. apply list_elem_of_here.
      * destruct (IH _ Hin) as [?|?]; [by left |].
        right. by apply list_elem_of_further.
    + destruct (decide (ai = NUL)) as [->|HN].
      * destruct (decide (a - cl < minsegment)) as [Hs|Hs].
        -- intros Hin. destruct (IH _ Hin) as [?|?]; [by left |].
           right. by apply list_elem_of_further.
        -- intros [->|Hin]%elem_of_cons.
           ++ left. simpl. lia.
           ++ destruct (IH _ Hin) as [?|?]; [by left |].
              right. by apply list_elem_of_further.
      * intros Hin. destruct (IH _ Hin) as [?|?]; [by left |].
        right. by apply list_elem_of_further.
Qed.

Lemma make_endpoints_right (selected : list Range) (extra : list (Z * Z))
    (a : Z) :
  LEFT ≠ RIGHT → RIGHT ≠ NUL →
  (a, RIGHT) ∈ make_endpoints LEFT RIGHT selected extra →
  ∃ x, x ∈ extra ∧ a = x.2.
Proof.
  intros HL HN. unfold make_endpoints.
  rewrite elem_of_py_sort, !elem_of_app, !list_elem_of_fmap.
  intros [(r & Heq & _)|[(x & Heq & _)|(x & Heq & Hx)]].
  - injection Heq as _ Heq. done.
  - injection Heq as _ Heq. done.
  - injection Heq as ->. eauto.
Qed.

Lemma make_endpoints_left (selected : list Range) (extra : list (Z * Z))
    (a : Z) :
  LEFT ≠ RIGHT → LEFT ≠ NUL →
  (a, LEFT) ∈ make_endpoints LEFT RIGHT selected extra →
  ∃ x, x ∈ extra ∧ a = x.1.
Proof.
  intros HL HN. unfold make_endpoints.
  rewrite elem_of_py_sort, !elem_of_app, !list_elem_of_fmap.
  intros [(r & Heq & _)|[(x & Heq & Hx)|(x & Heq & _)]].
  - injection Heq as _ Heq. done.
  - injection Heq as ->. eauto.
  - injection Heq as _ Heq. done.
Qed.

Lemma make_endpoints_of_break (selected : list Range) (extra : list (Z * Z))
    (x : Z * Z) :
  x ∈ extra → (x.2, RIGHT) ∈ make_endpoints LEFT RIGHT selected extra.
Proof.
  intros Hx. unfold make_endpoints.
  rewrite elem_of_py_sort, !elem_of_app, !list_elem_of_fmap.
  right. right. by exists x.
Qed.

(** The events come in the order of their positions. *)
Lemma make_endpoints_later (selected : list Range) (extra : list (Z * Z))
    (pre rest : list (Z * Z)) (p q : Z * Z) :
  make_endpoints LEFT RIGHT selected extra = pre ++ p :: rest →
  q ∈ rest → p.1 ≤ q.1.
Proof.
  intros Heq Hq.
  assert (StronglySorted point_le ((pre ++ [p]) ++ rest)) as Hs.
  { rewrite <-app_assoc. simpl. rewrite <-Heq.
    apply (StronglySorted_merge_sort point_le). }
  assert (point_le p q) as Hle.
  { apply (StronglySorted_app_1_elem_of _ _ _ _ _ Hs); [| done].
    apply elem_of_app. right. apply list_elem_of_here. }
  unfold point_le in Hle. lia.
Qed.

(** The loop over [pre ++ rest] is the loop over [pre] followed by the loop
    over [rest] from the left edge that [pre] leaves. *)
Lemma sweep_app (minsegment : Z) (pre rest : list (Z * Z))
    (current_left : Z) :
  sweep LEFT RIGHT minsegment current_left (pre ++ rest)
  = sweep LEFT RIGHT minsegment current_left pre
    ++ sweep LEFT RIGHT minsegment
         (left_after LEFT RIGHT minsegment current_left pre) rest.
Proof.
  revert current_left.
  induction pre as [|[a ai] pre IH]; intros current_left; [done |].
  cbn [app sweep left_after].
  set (cl := if decide (ai = LEFT) then a else current_left).
  destruct (decide (ai = RIGHT)); [by rewrite IH |].
  destruct (decide (ai = NUL)); [| by rewrite IH].
  destruct (decide (a - cl < minsegment)); by rewrite IH.
Qed.

(** The first pair that the loop emits starts at the left edge the loop
    began with, or at a [LEFT] event met before; it ends no earlier than one
    before the position of some event. *)
Lemma sweep_head (minsegment : Z) (evs : list (Z * Z)) (current_left : Z)
    (seg : Z * Z) :
  head (sweep LEFT RIGHT minsegment current_left evs) = Some seg →
  (seg.1 = current_left ∨ ∃ a, (a, LEFT) ∈ evs ∧ seg.1 = a) ∧
  ∃ ev, ev ∈ evs ∧ ev.1 - 1 ≤ seg.2.
Proof.
  revert current_left.
  induction evs as [|[a ai] evs IH]; intros current_left; [done |].
  cbn [sweep].
  set (cl := if decide (ai = LEFT) then a else current_left).
  assert (cl = current_left ∨ (a, LEFT) ∈ (a, ai) :: evs ∧ cl = a) as Hcl.
  { unfold cl. destruct (decide (ai = LEFT)) as [->|]; [right | by left].
    split; [apply list_elem_of_here | done]. }
  assert (∀ seg,
    ((seg.1 = cl ∨ ∃ a', (a', LEFT) ∈ evs ∧ seg.1 = a') ∧
     ∃ ev, ev ∈ evs ∧ ev.1 - 1 ≤ seg.2) →
    (seg.1 = current_left ∨ ∃ a', (a', LEFT) ∈ (a, ai) :: evs ∧ seg.1 = a') ∧
    ∃ ev, ev ∈ (a, ai) :: evs ∧ ev.1 - 1 ≤ seg.2) as Hstep.
  { intros sg [[H1|(a' & Ha' & H1)] (ev & Hev & H2)].
    - split; [| exists ev; split; [by apply list_elem_of_further | done]].
      destruct Hcl as [Hcl|[Hin Hcl]]; [left; congruence |].
      right. exists a. split; [done | congruence].
    - split; [| exists ev; split; [by apply list_elem_of_further | done]].
      right. exists a'. split; [by apply list_elem_of_further | done]. }
  assert (∀ r, a - 1 ≤ r →
    ((cl, r).1 = current_left
     ∨ ∃ a', (a', LEFT) ∈ (a, ai) :: evs ∧ (cl, r).1 = a') ∧
    ∃ ev, ev ∈ (a, ai) :: evs ∧ ev.1 - 1 ≤ (cl, r).2) as Hhere.
  { intros r Hr. split.
    - destruct Hcl as [Hcl|[Hin Hcl]]; [by left |].
      right. exists a. by split.
    - exists (a, ai). split; [apply list_elem_of_here | done]. }
  destruct (decide (ai = RIGHT)).
  { cbn [head]. intros [= <-]. apply Hhere. lia. }
  destruct (decide (ai = NUL)); [| intros Hh; by apply Hstep, IH].
  destruct (decide (a - cl < minsegment)).
  - intros Hh. by apply Hstep, IH.
  - cbn [head]. intros [= <-]. apply Hhere. lia.
Qed.

End sweep_facts.

(** C6 as stated fails: the segment left between the last cut and the end
    of a scaffold is emitted whatever its length. Here [minsegment] is 40
    and the last segment holds 10 genes. *)
Lemma get_segments_short_segment_at_break :
  get_segments 0 1 [block 90 95 1] [(0, 99)] 40 = [(0, 89); (90, 99)] ∧
  (90, 99) ∈ get_segments 0 1 [block 90 95 1] [(0, 99)] 40 ∧
  99 + 1 - 90 < 40.
Proof.
  assert (get_segments 0 1 [block 90 95 1] [(0, 99)] 40
          = [(0, 89); (90, 99)]) as Heq by (vm_compute; reflexivity).
  rewrite Heq. split_and!; [done | | lia].
  apply list_elem_of_further, list_elem_of_here.
Qed.

(** C6, amended. With the three event tags pairwise distinct:
    (1) every segment [(l, r)] yielded by [get_segments] holds at least
    [minsegment] indices ([r + 1 - l >= minsegment]) unless it ends at the
    end coordinate of a forced break;
    (2) the length test guards the cuts at selected range starts only: the
    end event [e] of a forced break emits [(current_left, e)] whatever its
    length, so every forced break has a yielded segment that ends at its
    end coordinate;
    (3) at a selected range start [a] closer than [minsegment] to the left
    edge nothing is emitted and the left edge stays; the first segment
    yielded after it, if there is one, either starts at that left edge and
    reaches at least [a - 1], so that it contains the short span, or starts
    at the start of a forced break that lies at or after [a]. *)
Theorem get_segments_minsegment (LEFT RIGHT : Z) (ranges : list Range)
    (extra : list (Z * Z)) (minsegment : Z) :
  LEFT ≠ RIGHT → RIGHT ≠ NUL → LEFT ≠ NUL →
  let endpoints := make_endpoints LEFT RIGHT (range_chain ranges).1 extra in
  let segments := get_segments LEFT RIGHT ranges extra minsegment in
  let left_edge pre := left_after LEFT RIGHT minsegment 0 pre in
  let yields current_left evs :=
    sweep LEFT RIGHT minsegment current_left evs in
  (∀ seg, seg ∈ segments →
     minsegment ≤ seg.2 + 1 - seg.1 ∨ ∃ x, x ∈ extra ∧ seg.2 = x.2) ∧
  (∀ pre e rest, endpoints = pre ++ (e, RIGHT) :: rest →
     segments
     = yields 0 pre ++ (left_edge pre, e) :: yields (left_edge pre) rest) ∧
  (∀ x, x ∈ extra → ∃ l, (l, x.2) ∈ segments) ∧
  (∀ pre a rest, endpoints = pre ++ (a, NUL) :: rest →
     a - left_edge pre < minsegment →
     segments = yields 0 pre ++ yields (left_edge pre) rest ∧
     ∀ seg, head (yields (left_edge pre) rest) = Some seg →
       (seg.1 = left_edge pre ∧ a - 1 ≤ seg.2) ∨
       (∃ x, x ∈ extra ∧ seg.1 = x.1 ∧ a ≤ x.1)).
Proof.
  intros HL HN HLN. cbv zeta. unfold get_segments.
  destruct (range_chain ranges) as [selected score]. cbn [fst].
  assert (∀ pre e rest,
    make_endpoints LEFT RIGHT selected extra = pre ++ (e, RIGHT) :: rest →
    sweep LEFT RIGHT minsegment 0 (make_endpoints LEFT RIGHT selected extra)
    = sweep LEFT RIGHT minsegment 0 pre
      ++ (left_after LEFT RIGHT minsegment 0 pre, e)
         :: sweep LEFT RIGHT minsegment
              (left_after LEFT RIGHT minsegment 0 pre) rest) as Hright.
  { intros pre e rest ->. rewrite sweep_app. f_equal. cbn [sweep].
    rewrite (decide_False (P := RIGHT = LEFT)) by done.
    by rewrite (decide_True (P := RIGHT = RIGHT)) by done. }
  split_and!.
  - intros seg [?|Hin]%sweep_segments; [by left | right].
    by apply (make_endpoints_right LEFT RIGHT selected).
  - exact Hright.
  - intros x Hx.
    destruct (list_elem_of_split _ _
                (make_endpoints_of_break LEFT RIGHT selected extra x Hx))
      as (pre & rest & Heq).
    exists (left_after LEFT RIGHT minsegment 0 pre).
    rewrite (Hright _ _ _ Heq), elem_of_app. right. apply list_elem_of_here.
  - intros pre a rest Heq Hshort. split.
    + rewrite Heq, sweep_app. f_equal. by apply sweep_short_span.
    + intros seg [[Hl|(b & Hb & Hl)] (ev & Hev & Hr)]%sweep_head.
      * left. split; [done |].
        pose proof (make_endpoints_later LEFT RIGHT selected extra
                      pre rest (a, NUL) ev Heq Hev) as Hle.
        simpl in Hle. lia.
      * right.
        pose proof (make_endpoints_later LEFT RIGHT selected extra
                      pre rest (a, NUL) (b, LEFT) Heq Hb) as Hle.
        simpl in Hle.
        destruct (make_endpoints_left LEFT RIGHT selected extra b HL HLN)
          as (x & Hx & Hbx).
        { rewrite Heq, elem_of_app. right. by apply list_elem_of_further. }
        exists x. split_and!; [done | congruence | lia].
Qed.

Lemma get_segments_minsegment_witness :
  (0:Z) ≠ 1 ∧ (1:Z) ≠ NUL ∧ (0:Z) ≠ NUL ∧
  (∀ seg, seg ∈ get_segments 0 1 [block 90 95 1] [(0, 99)] 40 →
     40 ≤ seg.2 + 1 - seg.1 ∨ ∃ x, x ∈ [(0, 99)] ∧ seg.2 = x.2) ∧
  (∃ l, (l, 99) ∈ get_segments 0 1 [block 90 95 1] [(0, 99)] 40).
Proof.
  destruct (get_segments_minsegment 0 1 [block 90 95 1] [(0, 99)] 40
              ltac:(done) ltac:(done) ltac:(done)) as (H1 & _ & H3 & _).
  split_and!; [done | done | done | exact H1 |].
  apply (H3 (0, 99)). apply list_elem_of_here.
Defined.

(** A range start 10 indices after the left edge, with [minsegment] 40, cuts
    nothing: the span joins the segment that the forced break closes. *)
Example get_segments_absorbs_short_span :
  get_segments 0 1 [block 10 95 1] [(0, 99)] 40 = [(0, 99)].
Proof. vm_compute. reflexivity. Qed.

(** Without a forced break nothing is yielded after a short span, and the
    span is in no segment. *)
Example get_segments_short_span_without_break :
  get_segments 0 1 [block 10 95 1] [] 40 = [].
Proof. vm_compute. reflexivity. Qed.

(** A forced break that starts after a short span moves the left edge, and
    the span before it is in no segment. *)
Example get_segments_short_span_before_break :
  get_segments 0 1 [block 5 8 1] [(10, 99)] 40 = [(10, 99)].
Proof. vm_compute. reflexivity. Qed.

(** C2. Two scaffolds of 50 genes and one synteny block that starts at the
    first gene of the second scaffold, with the default [minsegment] of 40.
    The forced breaks tile [[0, 100)]. Whatever the two tags are, as long as
    [LEFT] is above [NUL = -1] (jcvi.utils.range has [LEFT, RIGHT = 0, 1]),
    the range start sorts before the force-left event of the same position,
    so it is handled with the left edge of the first scaffold, and the
    segment of the first scaffold is emitted a second time. The yielded
    sequence overlaps itself; it tiles [[0, 100)] neither as closed nor as
    half-open intervals. *)
Theorem get_segments_repeats_segment (LEFT RIGHT : Z) :
  NUL < LEFT → RIGHT ≠ LEFT → RIGHT ≠ NUL →
  tiles 0 [(0, 49); (50, 99)] 100 ∧
  get_segments LEFT RIGHT [block 50 60 1] [(0, 49); (50, 99)] 40
  = [(0, 49); (0, 49); (50, 99)] ∧
  ¬ tiles 0
      (get_segments LEFT RIGHT [block 50 60 1] [(0, 49); (50, 99)] 40) 100 ∧
  ¬ tiles_half_open 0
      (get_segments LEFT RIGHT [block 50 60 1] [(0, 49); (50, 99)] 40) 100.
Proof.
  intros HL HRL HRN.
  assert (get_segments LEFT RIGHT [block 50 60 1] [(0, 49); (50, 99)] 40
          = [(0, 49); (0, 49); (50, 99)]) as Heq.
  { unfold get_segments.
    replace (range_chain [block 50 60 1]) with ([block 50 60 1], 10)
      by (vm_compute; reflexivity).
    assert (make_endpoints LEFT RIGHT [block 50 60 1] [(0, 49); (50, 99)]
            = [(0, LEFT); (49, RIGHT); (50, NUL); (50, LEFT); (99, RIGHT)])
      as ->.
    { symmetry. unfold make_endpoints. apply py_sort_unique.
      - repeat constructor; unfold point_le, NUL in *; simpl; lia.
      - simpl.
        apply (Permutation_cons_app [(50, NUL)]
                 [(50, LEFT); (49, RIGHT); (99, RIGHT)]).
        apply (Permutation_cons_app [(50, NUL); (50, LEFT)] [(99, RIGHT)]).
        reflexivity. }
    cbn [sweep]. unfold NUL in *.
    repeat case_decide; try lia; try done. }
  rewrite Heq.
  split; [simpl; lia |]. split; [done |]. split; simpl; lia.
Qed.

Lemma get_segments_repeats_segment_witness :
  NUL < 0 ∧ (1:Z) ≠ 0 ∧ (1:Z) ≠ NUL ∧
  get_segments 0 1 [block 50 60 1] [(0, 49); (50, 99)] 40
  = [(0, 49); (0, 49); (50, 99)].
Proof.
  split_and!; [done | done | done |].
  apply (get_segments_repeats_segment 0 1); done.
Defined.

(** Forced breaks written as half-open intervals fare no better: the
    force-left event of the second scaffold sorts before the force-right
    event of the first. *)
Example get_segments_half_open_breaks :
  get_segments 0 1 [] [(0, 50); (50, 100)] 40 = [(50, 50); (50, 100)].
Proof. vm_compute. reflexivity. Qed.

(** Without a range start on a scaffold boundary the same genome is cut as
    intended. *)
Example get_segments_tiles_example :
  get_segments 0 1 [block 55 60 1] [(0, 49); (50, 99)] 3
  = [(0, 49); (50, 54); (55, 99)].
Proof. vm_compute. reflexivity. Qed.

(** ** cluster: the sums of the observed and expected counts *)

Lemma row_sum_incr (row : list Z) (j : nat) (v : Z) :
  row !! j = Some v →
  foldr Z.add 0 (<[ j := v + 1 ]> row) = foldr Z.add 0 row + 1.
Proof.
  revert j. induction row as [|w row IH]; intros [|j]; simpl; try done.
  - intros [= ->]. lia.
  - intros Hj. rewrite (IH _ Hj). lia.
Qed.

Lemma matrix_sum_insert (a : list (list Z)) (i : nat) (row row' : list Z) :
  a !! i = Some row →
  matrix_sum (<[ i := row' ]> a)
  = matrix_sum a - foldr Z.add 0 row + foldr Z.add 0 row'.
Proof.
  unfold matrix_sum.
  revert i. induction a as [|r a IH]; intros [|i]; simpl; try done.
  - intros [= ->]. lia.
  - intros Hi. rewrite (IH _ Hi). lia.
Qed.

Lemma matrix_sum_zeros (m n : nat) : matrix_sum (zeros m n) = 0.
Proof.
  unfold zeros, matrix_sum.
  assert (foldr Z.add 0 (replicate n 0) = 0) as Hrow
    by (induction n as [|n IH]; simpl; [done | by rewrite IH]).
  induction m as [|m IH]; simpl; [done |]. rewrite Hrow, IH. done.
Qed.

Lemma incr_sum (a a' : list (list Z)) (i j : nat) :
  incr a i j = inr a' → matrix_sum a' = matrix_sum a + 1.
Proof.
  unfold incr.
  destruct (a !! i) as [row|] eqn:Hi; [| done].
  destruct (row !! j) as [v|] eqn:Hj; [| done].
  intros [= <-].
  rewrite (matrix_sum_insert _ _ _ _ Hi), (row_sum_incr _ _ _ Hj). lia.
Qed.

Lemma count_row_sum (qpadorder spadorder : order)
    (qpadid spadid : gmap string nat) (st st' : list (list Z) * Z)
    (b : BlastLine) :
  count_row qpadorder spadorder qpadid spadid st b = inr st' →
  matrix_sum st'.1 = matrix_sum st.1 + 1 ∧ st'.2 = st.2 + 1.
Proof.
  unfold count_row. destruct st as [obs dots].
  destruct (getitem qpadorder (query b)) as [|qe]; simpl; [done |].
  destruct (getitem spadorder (subject b)) as [|se]; simpl; [done |].
  destruct (getitem qpadid (seqid qe.2)) as [|qsi]; simpl; [done |].
  destruct (getitem spadid (seqid se.2)) as [|ssi]; simpl; [done |].
  destruct (incr obs qsi ssi) as [|obs'] eqn:Hincr; simpl; [done |].
  intros [= <-]. simpl. split; [| done].
  by apply incr_sum in Hincr.
Qed.

(** The counting loop adds one to one cell and one to [all_dots] for each
    row it reads. *)
Lemma count_hits_sum (qpadorder spadorder : order)
    (qpadid spadid : gmap string nat) (blastfile : list BlastLine)
    (st st' : list (list Z) * Z) :
  count_hits qpadorder spadorder qpadid spadid st blastfile = inr st' →
  matrix_sum st'.1 = matrix_sum st.1 + Z.of_nat (length blastfile) ∧
  st'.2 = st.2 + Z.of_nat (length blastfile).
Proof.
  revert st. induction blastfile as [|b rows IH]; intros st; simpl.
  - intros [= <-]. lia.
  - destruct (count_row qpadorder spadorder qpadid spadid st b) as [|st1]
      eqn:Hrow; [done |].
    simpl. intros Hrest.
    apply count_row_sum in Hrow as [H1 H2].
    apply IH in Hrest as [H3 H4]. lia.
Qed.

Section cluster_facts.

Variable F : Type.
Variable expected_cell : Z → Z → Z → Z → F.
Variable fsum : list (list F) → F.
Variable round_int : F → Z.
Variable significance : Z → Z → F → result F.

(** C7. In every run of the scorer that gets through the counting loop the
    cells of [observed] add up to the number of hits read, exactly. A run
    that produces the significance matrix has passed both assertions: its
    [observed] adds up to the hit count and the rounded sum of [expected] is
    the hit count. A run whose rounded sum of [expected] differs from the hit
    count stops with an AssertionError, and no matrix is produced. *)
Theorem cluster_score_sums (qpadnames spadnames : list string)
    (qpadorder spadorder : order) (qpadlen spadlen : gmap string Z)
    (len_qbed len_sbed : Z) (blastfile : list BlastLine) :
  let run :=
    cluster_score F expected_cell fsum round_int significance
      qpadnames spadnames qpadorder spadorder qpadlen spadlen
      len_qbed len_sbed blastfile in
  let counting :=
    count_hits qpadorder spadorder (padid qpadnames) (padid spadnames)
      (zeros (length qpadnames) (length spadnames), 0) blastfile in
  (∀ st, counting = inr st →
     matrix_sum st.1 = st.2 ∧ st.2 = Z.of_nat (length blastfile)) ∧
  (∀ r, run = inr r →
     matrix_sum (observed F r) = all_dots F r ∧
     all_dots F r = Z.of_nat (length blastfile) ∧
     round_int (fsum (expected F r)) = all_dots F r) ∧
  (∀ st exp, counting = inr st →
     expected_matrix F expected_cell qpadnames spadnames qpadlen spadlen
       st.2 (len_qbed * len_sbed) = inr exp →
     round_int (fsum exp) ≠ st.2 →
     run = inl AssertionError).
Proof.
  intros run counting.
  assert (∀ st, counting = inr st →
     matrix_sum st.1 = st.2 ∧ st.2 = Z.of_nat (length blastfile)) as Hcount.
  { intros st Hst. apply count_hits_sum in Hst as [H1 H2].
    cbn [fst snd] in H1, H2. rewrite matrix_sum_zeros in H1. lia. }
  split; [done |]. split.
  - intros r. unfold run, cluster_score. fold counting.
    destruct counting as [|st] eqn:Hc; [done |]. simpl.
    destruct (Hcount st eq_refl) as [H1 H2].
    case_bool_decide; [| done]. simpl.
    destruct (expected_matrix _ _ _ _ _ _ _ _) as [|exp]; [done |]. simpl.
    case_bool_decide as Hexp; [| done]. simpl.
    destruct (significance_matrix _ _ _ _ _) as [|lm]; [done |]. simpl.
    intros [= <-]. simpl. done.
  - intros st exp Hc Hexp Hne. unfold run, cluster_score. fold counting.
    rewrite Hc. simpl.
    destruct (Hcount st Hc) as [H1 H2].
    rewrite bool_decide_true by done. simpl.
    rewrite Hexp. simpl.
    by rewrite bool_decide_false by done.
Qed.

End cluster_facts.

(** A run with exact arithmetic: one pad of two genes on each axis and one
    hit. Both assertions pass and the matrix has the one cell that
    [significance] returns. *)
Example cluster_score_passes (significance : Z → Z → Q → result Q) (v : Q) :
  significance 1 1 (exact_cell 1 2 2 4) = inr v →
  cluster_score Q exact_cell exact_sum exact_round significance
    ["q:00000-00001"] ["q:00000-00001"] one_pad one_pad
    {[ "q:00000-00001" := 2 ]} {[ "q:00000-00001" := 2 ]} 2 2
    [ {| query := "a"; subject := "b" |} ]
  = inr {| observed := [[1]]; all_dots := 1;
           expected := [[exact_cell 1 2 2 4]]; logmp := [[v]] |}.
Proof.
  intros Hsig. unfold cluster_score. cbv zeta.
  match goal with |- context [count_hits ?a ?b ?c ?d ?e ?f] =>
    replace (count_hits a b c d e f)
      with (inr ([[1]], 1) : result (list (list Z) * Z))
      by (vm_compute; reflexivity)
  end.
  cbn [mbind result_bind fst snd].
  replace (assert (bool_decide (matrix_sum [[1]] = 1))) with (inr tt : result ())
    by (vm_compute; reflexivity).
  cbn [mbind result_bind].
  match goal with |- context [expected_matrix ?a ?b ?c ?d ?e ?f ?g ?h] =>
    replace (expected_matrix a b c d e f g h)
      with (inr [[exact_cell 1 2 2 4]] : result (list (list Q)))
      by (vm_compute; reflexivity)
  end.
  cbn [mbind result_bind].
  match goal with |- context [assert ?c] =>
    replace (assert c) with (inr tt : result ()) by (vm_compute; reflexivity)
  end.
  cbn [mbind result_bind].
  unfold significance_matrix.
  cbn [mapM zip zip_with mbind result_bind mret result_ret fst snd length
       Z.of_nat Pos.of_succ_nat Z.mul Pos.mul].
  change (Z.of_nat 1 * Z.of_nat 1) with 1.
  rewrite Hsig. reflexivity.
Qed.

(** A pad list with a repeated pad, as a repeated segment of [get_segments]
    produces it: the pad lengths add up to 151 genes for a genome of 100, the
    expected counts to 1.51 for one hit, and the run stops at the second
    assertion whatever [significance] is. *)
Example cluster_score_aborts (significance : Z → Z → Q → result Q) :
  cluster_score Q exact_cell exact_sum exact_round significance
    ["q:00000-00049"; "q:00000-00049"; "q:00050-00099"] ["q:00000-00001"]
    (<[ "a" := (0, gene "q:00000-00049" "a") ]> ∅) one_pad
    (<[ "q:00000-00049" := 51 ]> {[ "q:00050-00099" := 49 ]})
    {[ "q:00000-00001" := 2 ]} 100 2
    [ {| query := "a"; subject := "b" |} ]
  = inl AssertionError.
Proof. vm_compute. reflexivity. Qed.

(** ** get_segments away from the ties

    When no selected range starts at the first index of a scaffold (index 0
    apart), the sweep does cut the axis into consecutive segments. *)

Lemma filter_split (P Q R : Z → Prop) `{!∀ a, Decision (P a)}
    `{!∀ a, Decision (Q a)} `{!∀ a, Decision (R a)} (l : list Z) :
  (∀ a, a ∈ l → (P a ↔ Q a ∨ R a) ∧ ¬ (Q a ∧ R a)) →
  filter P l ≡ₚ filter Q l ++ filter R l.
Proof.
  induction l as [|a l IH]; intros Hall; [done |].
  assert (filter P l ≡ₚ filter Q l ++ filter R l) as IH'.
  { apply IH. intros b Hb. apply Hall. by apply list_elem_of_further. }
  destruct (Hall a (list_elem_of_here _ _)) as [HP Hex].
  rewrite !filter_cons.
  destruct (decide (Q a)) as [HQ|HQ]; destruct (decide (R a)) as [HR|HR].
  - exfalso. by apply Hex.
  - rewrite decide_True by (apply HP; by left). simpl. by rewrite IH'.
  - rewrite decide_True by (apply HP; by right).
    rewrite IH'. apply Permutation_middle.
  - rewrite decide_False by (rewrite HP; tauto). done.
Qed.

Lemma StronglySorted_filter (P : Z → Prop) `{!∀ a, Decision (P a)}
    (l : list Z) :
  StronglySorted Z.le l → StronglySorted Z.le (filter P l).
Proof.
  induction 1 as [|a l Hl IH Ha]; [constructor |].
  rewrite filter_cons. case_decide; [| done].
  constructor; [done |].
  rewrite Forall_forall in Ha. apply Forall_forall.
  intros b [_ Hb]%list_elem_of_filter. by apply Ha.
Qed.

Lemma tiles_le (segs : list (Z * Z)) (from upto : Z) :
  tiles from segs upto → from ≤ upto.
Proof.
  revert from. induction segs as [|[l r] segs IH]; intros from; simpl.
  - lia.
  - intros (-> & Hle & Hrest). apply IH in Hrest. lia.
Qed.

Lemma tiles_starts (segs : list (Z * Z)) (from upto : Z) (x : Z * Z) :
  tiles from segs upto → x ∈ segs → from ≤ x.1 < upto.
Proof.
  revert from. induction segs as [|[l r] segs IH]; intros from; simpl.
  - by intros _ ?%elem_of_nil.
  - intros (-> & Hle & Hrest) [->|Hx]%elem_of_cons.
    + apply tiles_le in Hrest. simpl. lia.
    + specialize (IH _ Hrest Hx). lia.
Qed.

Lemma layout_cons (LEFT RIGHT : Z) (starts : list Z) (s e : Z)
    (extra : list (Z * Z)) :
  layout LEFT RIGHT starts ((s, e) :: extra)
  = (s, LEFT) :: nul_events (filter (λ a, s < a ≤ e) starts)
              ++ (e, RIGHT) :: layout LEFT RIGHT starts extra.
Proof.
  unfold layout, scaffold_events. cbn [fmap list_fmap concat fst snd].
  by rewrite <-app_comm_cons, <-(assoc_L (++)).
Qed.

Section tiling.

Variables LEFT RIGHT : Z.
Hypothesis tags : NUL < LEFT < RIGHT.

Variable minsegment : Z.
Hypothesis minsegment_pos : 1 ≤ minsegment.

Variable gene_count : Z.

(** [starts] is the sorted list of the selected range starts. *)
Variable starts : list Z.
Hypothesis starts_sorted : StronglySorted Z.le starts.

Lemma sweep_LEFT (current_left a : Z) (rest : list (Z * Z)) :
  sweep LEFT RIGHT minsegment current_left ((a, LEFT) :: rest)
  = sweep LEFT RIGHT minsegment a rest.
Proof.
  cbn [sweep]. repeat case_decide; unfold NUL in *; (done || lia).
Qed.

Lemma sweep_RIGHT (current_left a : Z) (rest : list (Z * Z)) :
  sweep LEFT RIGHT minsegment current_left ((a, RIGHT) :: rest)
  = (current_left, a) :: sweep LEFT RIGHT minsegment current_left rest.
Proof.
  cbn [sweep]. repeat case_decide; unfold NUL in *; (done || lia).
Qed.

Lemma sweep_NUL (current_left a : Z) (rest : list (Z * Z)) :
  sweep LEFT RIGHT minsegment current_left ((a, NUL) :: rest)
  = if decide (a - current_left < minsegment)
    then sweep LEFT RIGHT minsegment current_left rest
    else (current_left, a - 1) :: sweep LEFT RIGHT minsegment a rest.
Proof.
  cbn [sweep]. repeat case_decide; unfold NUL in *; (done || lia).
Qed.

(** The range starts inside one scaffold, up to its force-right event. *)
Lemma sweep_inside (e : Z) (tail : list (Z * Z)) (inner : list Z)
    (current_left : Z) :
  StronglySorted Z.le inner →
  Forall (λ a, current_left ≤ a ≤ e) inner →
  current_left ≤ e →
  (∀ cl, tiles (e + 1) (sweep LEFT RIGHT minsegment cl tail) gene_count) →
  tiles current_left
    (sweep LEFT RIGHT minsegment current_left
       (nul_events inner ++ (e, RIGHT) :: tail)) gene_count.
Proof.
  intros Hs. revert current_left.
  induction Hs as [|a inner Hs IH Ha]; intros cl Hin Hle Htail.
  - change (nul_events [] ++ (e, RIGHT) :: tail) with ((e, RIGHT) :: tail).
    rewrite sweep_RIGHT. cbn [tiles]. split_and!; [done | done |].
    apply Htail.
  - apply Forall_cons in Hin as [Hacl Hin].
    change (nul_events (a :: inner) ++ (e, RIGHT) :: tail)
      with ((a, NUL) :: nul_events inner ++ (e, RIGHT) :: tail).
    rewrite sweep_NUL. case_decide.
    + by apply IH.
    + cbn [tiles]. split_and!; [done | lia |].
      replace (a - 1 + 1) with a by lia.
      apply IH; [| lia | done].
      rewrite Forall_forall in Ha. rewrite Forall_forall in Hin.
      apply Forall_forall.
      intros b Hb. specialize (Ha b Hb). specialize (Hin b Hb). lia.
Qed.

(** Scaffold after scaffold. *)
Lemma sweep_layout (extra : list (Z * Z)) (from current_left : Z) :
  tiles from extra gene_count →
  tiles from
    (sweep LEFT RIGHT minsegment current_left (layout LEFT RIGHT starts extra))
    gene_count.
Proof.
  revert from current_left.
  induction extra as [|[s e] extra IH]; intros from cl; [done |].
  intros (-> & Hle & Hrest).
  rewrite layout_cons, sweep_LEFT.
  apply sweep_inside; [by apply StronglySorted_filter | | done |].
  - apply Forall_forall. intros a [? _]%list_elem_of_filter. lia.
  - intros cl'. by apply IH.
Qed.

(** Range starts at index 0 come first and cut nothing. *)
Lemma sweep_prefix (zeros : list Z) (tail : list (Z * Z)) :
  Forall (λ a, a = 0) zeros →
  sweep LEFT RIGHT minsegment 0 (nul_events zeros ++ tail)
  = sweep LEFT RIGHT minsegment 0 tail.
Proof.
  induction 1 as [|a zeros -> _ IH]; [done |].
  change (nul_events (0 :: zeros) ++ tail)
    with ((0, NUL) :: nul_events zeros ++ tail).
  rewrite sweep_NUL, decide_True by lia. done.
Qed.

(** The layout has the events of the endpoint list. *)
Lemma layout_Permutation (extra : list (Z * Z)) (from : Z) :
  tiles from extra gene_count →
  (∀ a x, a ∈ starts → x ∈ extra → a = x.1 → a ≤ from) →
  layout LEFT RIGHT starts extra ≡ₚ
    nul_events (filter (λ a, from < a < gene_count) starts)
    ++ ((λ x, (x.1, LEFT)) <$> extra) ++ ((λ x, (x.2, RIGHT)) <$> extra).
Proof.
  revert from.
  induction extra as [|[s e] extra IH]; intros from.
  - simpl. intros -> _. unfold layout. simpl.
    rewrite (list_filter_iff _ (λ _, False)) by lia.
    assert (filter (λ _ : Z, False) starts = []) as ->; [| done].
    clear. induction starts as [|a l IH]; [done |].
    by rewrite filter_cons, decide_False by tauto.
  - intros (<- & Hle & Hrest) Hties.
    pose proof (tiles_le _ _ _ Hrest) as Hupto.
    assert (layout LEFT RIGHT starts extra ≡ₚ
      nul_events (filter (λ a, e + 1 < a < gene_count) starts)
      ++ ((λ x, (x.1, LEFT)) <$> extra) ++ ((λ x, (x.2, RIGHT)) <$> extra))
      as IH'.
    { apply IH; [done |]. intros a x Ha Hx Heq.
      pose proof (tiles_starts _ _ _ _ Hrest Hx).
      specialize (Hties a x Ha (list_elem_of_further _ _ _ Hx) Heq). lia. }
    assert (filter (λ a, s < a < gene_count) starts ≡ₚ
      filter (λ a, s < a ≤ e) starts
      ++ filter (λ a, e + 1 < a < gene_count) starts) as Hsplit.
    { apply filter_split. intros a Ha. split; [| lia].
      assert (a = e + 1 → gene_count ≤ a) as Hne.
      { intros ->. destruct extra as [|[s' e'] extra'].
        - simpl in Hrest. lia.
        - destruct Hrest as (Hs' & _ & _). simpl in Hs'. subst s'.
          specialize (Hties (e + 1) (e + 1, e') Ha).
          simpl in Hties.
          assert (e + 1 ≤ s); [| lia].
          apply Hties; [| done].
          apply list_elem_of_further, list_elem_of_here. }
      lia. }
    rewrite layout_cons, IH'. unfold nul_events in *.
    rewrite Hsplit, fmap_app. cbn [fmap list_fmap app].
    rewrite <-!Permutation_middle. apply perm_skip.
    rewrite <-!(assoc_L (++)). reflexivity.
Qed.

(** The layout is sorted, it lies at or after [from], and NUL is its least
    tag. *)
Lemma layout_sorted (extra : list (Z * Z)) (from : Z) :
  tiles from extra gene_count →
  StronglySorted point_le (layout LEFT RIGHT starts extra) ∧
  Forall (λ ev, from ≤ ev.1 ∧ NUL ≤ ev.2) (layout LEFT RIGHT starts extra).
Proof.
  revert from.
  induction extra as [|[s e] extra IH]; intros from.
  - intros _. split; constructor.
  - intros (<- & Hle & Hrest).
    destruct (IH _ Hrest) as [IHs IHf].
    rewrite layout_cons.
    set (inner := filter (λ a, s < a ≤ e) starts).
    set (rest := layout LEFT RIGHT starts extra) in *.
    assert (Forall (λ a, s < a ≤ e) inner) as Hinner.
    { apply Forall_forall. by intros a [? _]%list_elem_of_filter. }
    rewrite Forall_forall in Hinner. rewrite Forall_forall in IHf.
    assert (StronglySorted point_le ((e, RIGHT) :: rest)) as Hright.
    { constructor; [done |]. apply Forall_forall. intros ev Hev.
      destruct (IHf ev Hev). unfold point_le. simpl. lia. }
    assert (StronglySorted point_le
              (nul_events inner ++ (e, RIGHT) :: rest)) as Hmid.
    { apply StronglySorted_app. split_and!; [| | done].
      - intros x1 x2 (a & -> & Ha)%list_elem_of_fmap Hx2.
        specialize (Hinner a Ha). unfold point_le. simpl.
        apply elem_of_cons in Hx2 as [->|Hx2]; simpl; [lia |].
        destruct (IHf x2 Hx2). lia.
      - apply (StronglySorted_fmap _ Z.le);
          [| by apply StronglySorted_filter].
        intros x y Hxy. unfold point_le. simpl. lia. }
    split.
    + constructor; [done |]. apply Forall_forall. intros ev.
      rewrite elem_of_app, elem_of_cons. unfold point_le. simpl.
      intros [(a & -> & Ha)%list_elem_of_fmap|[->|Hev]]; simpl.
      * specialize (Hinner a Ha). lia.
      * lia.
      * destruct (IHf ev Hev). lia.
    + apply Forall_forall. intros ev.
      rewrite elem_of_cons, elem_of_app, elem_of_cons.
      intros [->|[(a & -> & Ha)%list_elem_of_fmap|[->|Hev]]]; simpl.
      * lia.
      * specialize (Hinner a Ha). lia.
      * lia.
      * destruct (IHf ev Hev). lia.
Qed.

End tiling.

Lemma filter_all (P : Z → Prop) `{!∀ a, Decision (P a)} (l : list Z) :
  Forall P l → filter P l = l.
Proof.
  induction 1 as [|a l Ha _ IH]; [done |].
  by rewrite filter_cons, decide_True, IH by done.
Qed.

(** The endpoint list of [get_segments] is the layout, when the range starts
    lie on the axis and none is the first index of a scaffold (index 0
    apart). *)
Lemma make_endpoints_layout (LEFT RIGHT gene_count : Z)
    (selected : list Range) (extra : list (Z * Z)) :
  NUL < LEFT < RIGHT →
  tiles 0 extra gene_count →
  (∀ r, r ∈ selected → 0 ≤ r_start r < gene_count) →
  (∀ r x, r ∈ selected → x ∈ extra → r_start r = x.1 → r_start r = 0) →
  let starts := merge_sort Z.le (r_start <$> selected) in
  make_endpoints LEFT RIGHT selected extra
  = nul_events (filter (λ a, a = 0) starts) ++ layout LEFT RIGHT starts extra.
Proof.
  intros Htags Htiles Hrange Hties starts.
  assert (starts ≡ₚ r_start <$> selected) as Hperm
    by apply (merge_sort_Permutation Z.le).
  assert (StronglySorted Z.le starts) as Hsorted
    by apply (StronglySorted_merge_sort Z.le).
  assert (∀ a, a ∈ starts → ∃ r, r ∈ selected ∧ a = r_start r) as Hstarts.
  { intros a Ha. rewrite Hperm in Ha.
    apply list_elem_of_fmap in Ha as (r & -> & Hr). eauto. }
  destruct (layout_sorted LEFT RIGHT Htags gene_count starts Hsorted
              extra 0 Htiles) as [Hls Hlf].
  symmetry. unfold make_endpoints. apply py_sort_unique.
  - apply StronglySorted_Sorted, StronglySorted_app. split_and!; [| | done].
    + intros x1 x2 (a & -> & [-> _]%list_elem_of_filter)%list_elem_of_fmap Hx2.
      rewrite Forall_forall in Hlf. destruct (Hlf x2 Hx2).
      unfold point_le. simpl. lia.
    + apply (StronglySorted_fmap _ Z.le);
        [| by apply StronglySorted_filter].
      intros x y Hxy. unfold point_le. simpl. lia.
  - rewrite (layout_Permutation LEFT RIGHT gene_count starts extra 0 Htiles).
    + rewrite (assoc_L (++)). apply Permutation_app_tail.
      unfold nul_events. rewrite <-fmap_app.
      rewrite <-(filter_split (λ a, 0 ≤ a < gene_count) (λ a, a = 0)
                   (λ a, 0 < a < gene_count))
        by (intros a (r & Hr & ->)%Hstarts; specialize (Hrange r Hr); lia).
      rewrite filter_all.
      * by rewrite Hperm, <-list_fmap_compose.
      * apply Forall_forall. intros a (r & Hr & ->)%Hstarts. by apply Hrange.
    + intros a x (r & Hr & ->)%Hstarts Hx Heq.
      rewrite (Hties r x Hr Hx Heq). done.
Qed.

(** Away from the ties the claim of C2 holds: with [NUL] below the two tags,
    a positive [minsegment], forced breaks that tile [[0, gene_count)], and
    selected ranges that start on the axis but not at the first index of a
    scaffold (index 0 apart), the yielded segments are consecutive, non-empty
    and cover [[0, gene_count)]. *)
Theorem get_segments_tiles_without_ties (LEFT RIGHT : Z)
    (ranges : list Range) (extra : list (Z * Z))
    (minsegment gene_count : Z) :
  NUL < LEFT < RIGHT → 1 ≤ minsegment →
  tiles 0 extra gene_count →
  (∀ r, r ∈ (range_chain ranges).1 → 0 ≤ r_start r < gene_count) →
  (∀ r x, r ∈ (range_chain ranges).1 → x ∈ extra →
          r_start r = x.1 → r_start r = 0) →
  tiles 0 (get_segments LEFT RIGHT ranges extra minsegment) gene_count.
Proof.
  intros Htags Hmin Htiles Hrange Hties. unfold get_segments.
  destruct (range_chain ranges) as [selected score]. simpl in Hrange, Hties.
  rewrite (make_endpoints_layout LEFT RIGHT gene_count) by done.
  cbv zeta.
  rewrite (sweep_prefix LEFT RIGHT Htags minsegment Hmin).
  - apply (sweep_layout LEFT RIGHT Htags minsegment Hmin); [| done].
    apply (StronglySorted_merge_sort Z.le).
  - apply Forall_forall. by intros a [? _]%list_elem_of_filter.
Qed.

Lemma get_segments_tiles_without_ties_witness :
  tiles 0 (get_segments 0 1 [block 55 60 1] [(0, 49); (50, 99)] 3) 100.
Proof.
  apply (get_segments_tiles_without_ties 0 1 [block 55 60 1]
           [(0, 49); (50, 99)] 3 100).
  - unfold NUL. lia.
  - lia.
  - simpl. lia.
  - intros r. vm_compute (range_chain _).1.
    intros ->%list_elem_of_singleton. simpl. lia.
  - intros r x. vm_compute (range_chain _).1.
    intros ->%list_elem_of_singleton Hx. simpl.
    apply elem_of_cons in Hx as [->|Hx]; [simpl; lia |].
    apply list_elem_of_singleton in Hx as ->. simpl. lia.
Defined.

(** * Properties of the other functions *)

Example padname_example : padname "q" (0, 49) = "q:00000-00049".
Proof. vm_compute. reflexivity. Qed.

Example rsplit1_example :
  rsplit1 "Medtr1g004940.1" = "Medtr1g004940" ∧ rsplit1 "marker" = "marker".
Proof. split; vm_compute; reflexivity. Qed.

(** ** synteny_scan: what the groups are *)

Lemma elem_of_alter_app (g : list (list point)) (i : nat)
    (x s' : list point) :
  s' ∈ alter (λ s, s ++ x) i g →
  s' ∈ g ∨ ∃ s, g !! i = Some s ∧ s' = s ++ x.
Proof.
  intros (k & Hk)%list_elem_of_lookup.
  destruct (decide (i = k)) as [->|Hne].
  - rewrite list_lookup_alter_eq in Hk.
    destruct (g !! k) as [s|] eqn:E; [| done].
    injection Hk as <-. right. eauto.
  - rewrite list_lookup_alter_ne in Hk by done.
    left. by eapply list_elem_of_lookup_2.
Qed.

Lemma elem_of_delete_inv (g : list (list point)) (i : nat)
    (s : list point) :
  s ∈ delete i g → s ∈ g.
Proof.
  intros (k & Hk)%list_elem_of_lookup.
  destruct (decide (k < i)%nat).
  - rewrite list_lookup_delete_lt in Hk by done.
    by eapply list_elem_of_lookup_2.
  - rewrite list_lookup_delete_ge in Hk by lia.
    by eapply list_elem_of_lookup_2.
Qed.

Lemma elem_of_touch (g : Grouper.t) (a : point) (s : list point) :
  s ∈ Grouper.touch g a → s ∈ g ∨ s = [a].
Proof.
  unfold Grouper.touch. destruct (Grouper.find g a); [by left |].
  intros [?|Hs]%elem_of_app; [by left |].
  apply list_elem_of_singleton in Hs as ->. by right.
Qed.

Lemma touch_incl (g : Grouper.t) (a : point) (s : list point) :
  s ∈ g → s ∈ Grouper.touch g a.
Proof.
  unfold Grouper.touch. destruct (Grouper.find g a); [done |].
  intros ?. apply elem_of_app. by left.
Qed.

(** The groups after a join: an old group, the group of a point joined with
    itself, or the group of [a] put together with the group of [b]. *)
Lemma join_groups (g : Grouper.t) (a b : point) (s' : list point) :
  s' ∈ Grouper.join g a b →
  s' ∈ g ∨ s' = [a] ∨
  ∃ sa sb, (sa ∈ g ∨ sa = [a]) ∧ (sb ∈ g ∨ sb = [b]) ∧ a ∈ sa ∧ b ∈ sb ∧
           (s' = sa ++ sb ∨ s' = sb ++ sa).
Proof.
  unfold Grouper.join. set (g1 := Grouper.touch g a).
  destruct (Grouper.find g1 a) as [ia|] eqn:Ea.
  2:{ intros [?| ->]%elem_of_touch; [by left | by right; left]. }
  destruct (find_Some _ _ _ Ea) as (sa & Hsa & Hina).
  assert (sa ∈ g ∨ sa = [a]) as Hsa'
    by (apply elem_of_touch; by eapply list_elem_of_lookup_2).
  destruct (Grouper.find g1 b) as [ib|] eqn:Eb.
  - destruct (find_Some _ _ _ Eb) as (sb & Hsb & Hinb).
    assert (sb ∈ g ∨ sb = [a]) as Hsb'
      by (apply elem_of_touch; by eapply list_elem_of_lookup_2).
    assert (sb ∈ g ∨ sb = [b]) as Hsb''.
    { destruct Hsb' as [?| ->]; [by left |].
      apply list_elem_of_singleton in Hinb as ->. by right. }
    destruct (decide (ia = ib)) as [->|Hneq].
    + intros [?| ->]%elem_of_touch; [by left | by right; left].
    + rewrite Hsa, Hsb. simpl.
      destruct (decide (length sa < length sb)%nat).
      * intros [Hs|(s & Hs & ->)]%elem_of_delete_inv%elem_of_alter_app.
        -- apply elem_of_touch in Hs as [?| ->]; [by left | by right; left].
        -- rewrite Hsb in Hs. injection Hs as <-.
           right; right. exists sa, sb. split_and!; try done. by right.
      * intros [Hs|(s & Hs & ->)]%elem_of_delete_inv%elem_of_alter_app.
        -- apply elem_of_touch in Hs as [?| ->]; [by left | by right; left].
        -- rewrite Hsa in Hs. injection Hs as <-.
           right; right. exists sa, sb. split_and!; try done. by left.
  - intros [Hs|(s & Hs & ->)]%elem_of_alter_app.
    + apply elem_of_touch in Hs as [?| ->]; [by left | by right; left].
    + rewrite Hsa in Hs. injection Hs as <-.
      right; right. exists sa, [b].
      split_and!; [done | by right | done | apply list_elem_of_here | by left].
Qed.

(** A join only makes groups larger: every old group is inside a new one. *)
Lemma join_incl (g : Grouper.t) (a b : point) (s : list point) :
  s ∈ g → ∃ s', s' ∈ Grouper.join g a b ∧ s ⊆ s'.
Proof.
  intros Hs%(touch_incl g a). unfold Grouper.join.
  set (g1 := Grouper.touch g a) in *.
  destruct (Grouper.find g1 a) as [ia|] eqn:Ea; [| by exists s].
  destruct (find_Some _ _ _ Ea) as (sa & Hsa & Hina).
  apply list_elem_of_lookup in Hs as (k & Hk).
  destruct (Grouper.find g1 b) as [ib|] eqn:Eb.
  - destruct (find_Some _ _ _ Eb) as (sb & Hsb & Hinb).
    destruct (decide (ia = ib)) as [->|Hneq].
    { exists s. split; [by eapply list_elem_of_lookup_2 | done]. }
    rewrite Hsa, Hsb. simpl.
    destruct (decide (length sa < length sb)%nat).
    + destruct (decide (k = ib)) as [->|Hkb].
      * exists (sb ++ sa). split.
        -- apply (elem_of_delete_ne _ ib); [| done].
           by rewrite list_lookup_alter_eq, Hsb.
        -- assert (s = sb) as -> by congruence.
           intros x ?. apply elem_of_app. by left.
      * destruct (decide (k = ia)) as [->|Hka].
        -- exists (sb ++ sa). split.
           ++ apply (elem_of_delete_ne _ ib); [| done].
              by rewrite list_lookup_alter_eq, Hsb.
           ++ assert (s = sa) as -> by congruence.
              intros x ?. apply elem_of_app. by right.
        -- exists s. split; [| done].
           apply (elem_of_delete_ne _ k); [| done].
           by rewrite list_lookup_alter_ne.
    + destruct (decide (k = ia)) as [->|Hka].
      * exists (sa ++ sb). split.
        -- apply (elem_of_delete_ne _ ia); [| done].
           by rewrite list_lookup_alter_eq, Hsa.
        -- assert (s = sa) as -> by congruence.
           intros x ?. apply elem_of_app. by left.
      * destruct (decide (k = ib)) as [->|Hkb].
        -- exists (sa ++ sb). split.
           ++ apply (elem_of_delete_ne _ ia); [| done].
              by rewrite list_lookup_alter_eq, Hsa.
           ++ assert (s = sb) as -> by congruence.
              intros x ?. apply elem_of_app. by right.
        -- exists s. split; [| done].
           apply (elem_of_delete_ne _ k); [| done].
           by rewrite list_lookup_alter_ne.
  - destruct (decide (k = ia)) as [->|Hka].
    + exists (sa ++ [b]). split.
      * apply (list_elem_of_lookup_2 _ ia).
        by rewrite list_lookup_alter_eq, Hsa.
      * assert (s = sa) as -> by congruence.
        intros x ?. apply elem_of_app. by left.
    + exists s. split; [| done].
      apply (list_elem_of_lookup_2 _ k). by rewrite list_lookup_alter_ne.
Qed.

Lemma same_group_sym (g : list (list point)) (p q : point) :
  same_group g p q → same_group g q p.
Proof. intros (s & ? & ? & ?). by exists s. Qed.

Lemma join_same_group_mono (g : Grouper.t) (a b p q : point) :
  same_group g p q → same_group (Grouper.join g a b) p q.
Proof.
  intros (s & Hs & Hp & Hq).
  destruct (join_incl g a b s Hs) as (s' & Hs' & Hincl).
  exists s'. split_and!; [done | by apply Hincl | by apply Hincl].
Qed.

Lemma look_back_mono (xdist ydist : Z) (p : point) (prev : list point)
    (g : Grouper.t) (a b : point) :
  same_group g a b → same_group (look_back xdist ydist g p prev) a b.
Proof.
  revert g. induction prev as [|q prev IH]; intros g Hab; simpl; [done |].
  repeat case_decide; auto using join_same_group_mono.
Qed.

Lemma linked_sym (xdist ydist : Z) (p q : point) :
  linked xdist ydist p q → linked xdist ydist q p.
Proof. unfold linked. lia. Qed.

Lemma chain_mono (xdist ydist : Z) (s s' : list point) (a b : point) :
  s ⊆ s' → chain xdist ydist s a b → chain xdist ydist s' a b.
Proof.
  intros Hincl. apply rtc_subrel. intros u v (? & ? & ?).
  split_and!; [by apply Hincl | by apply Hincl | done].
Qed.

Lemma chain_sym (xdist ydist : Z) (s : list point) (a b : point) :
  chain xdist ydist s a b → chain xdist ydist s b a.
Proof.
  induction 1 as [|x y z (? & ? & ?) _ IH]; [apply rtc_refl |].
  eapply rtc_r; [exact IH |]. split_and!; [done | done |].
  by apply linked_sym.
Qed.

Lemma linked_group_singleton (points : list point) (xdist ydist : Z)
    (a : point) :
  a ∈ points → linked_group points xdist ydist [a].
Proof.
  intros Ha. split.
  - by intros x ->%list_elem_of_singleton.
  - intros x y ->%list_elem_of_singleton ->%list_elem_of_singleton.
    apply rtc_refl.
Qed.

Lemma linked_group_merge (points : list point) (xdist ydist : Z)
    (sa sb : list point) (a b : point) :
  linked_group points xdist ydist sa → linked_group points xdist ydist sb →
  a ∈ sa → b ∈ sb → linked xdist ydist a b →
  linked_group points xdist ydist (sa ++ sb).
Proof.
  intros [Hpa Hca] [Hpb Hcb] Ha Hb Hab.
  assert (sa ⊆ sa ++ sb) as Hia by (intros x ?; apply elem_of_app; by left).
  assert (sb ⊆ sa ++ sb) as Hib by (intros x ?; apply elem_of_app; by right).
  assert (chain xdist ydist (sa ++ sb) a b) as Hlink.
  { apply rtc_once. split_and!; [by apply Hia | by apply Hib | done]. }
  split.
  - intros x [?|?]%elem_of_app; auto.
  - intros x y [Hx|Hx]%elem_of_app [Hy|Hy]%elem_of_app.
    + by apply (chain_mono _ _ sa), Hca.
    + etrans; [apply (chain_mono _ _ sa), (Hca x a); done |].
      etrans; [exact Hlink |]. by apply (chain_mono _ _ sb), Hcb.
    + apply chain_sym.
      etrans; [apply (chain_mono _ _ sa), (Hca y a); done |].
      etrans; [exact Hlink |]. by apply (chain_mono _ _ sb), Hcb.
    + by apply (chain_mono _ _ sb), Hcb.
Qed.

Lemma linked_group_perm (points : list point) (xdist ydist : Z)
    (s s' : list point) :
  s ≡ₚ s' → linked_group points xdist ydist s →
  linked_group points xdist ydist s'.
Proof.
  intros Hp [Hin Hch]. split.
  - intros x Hx. apply Hin. by rewrite Hp.
  - intros a b Ha Hb. apply (chain_mono _ _ s).
    + intros x Hx. by rewrite <-Hp.
    + apply Hch; by rewrite Hp.
Qed.

Lemma join_linked_groups (points : list point) (xdist ydist : Z)
    (g : Grouper.t) (a b : point) :
  Forall (linked_group points xdist ydist) g →
  a ∈ points → b ∈ points → linked xdist ydist a b →
  Forall (linked_group points xdist ydist) (Grouper.join g a b).
Proof.
  intros Hg Ha Hb Hab. rewrite Forall_forall in Hg. apply Forall_forall.
  intros s' [Hs|[->|(sa & sb & Hsa & Hsb & Hina & Hinb & Heq)]]%join_groups.
  - by apply Hg.
  - by apply linked_group_singleton.
  - assert (linked_group points xdist ydist sa) as Hqa
      by (destruct Hsa as [?| ->]; [by apply Hg
                                   | by apply linked_group_singleton]).
    assert (linked_group points xdist ydist sb) as Hqb
      by (destruct Hsb as [?| ->]; [by apply Hg
                                   | by apply linked_group_singleton]).
    assert (linked_group points xdist ydist (sa ++ sb)) as Hm
      by (by apply (linked_group_merge _ _ _ sa sb a b)).
    destruct Heq as [->| ->]; [done |].
    apply (linked_group_perm _ _ _ (sa ++ sb)); [| done].
    apply Permutation_app_comm.
Qed.

(** Looking back from [p] over earlier points of the sorted list, nearest
    first: [prev] is descending in x and not beyond [p]. *)
Lemma look_back_linked_groups (points : list point) (xdist ydist : Z)
    (p : point) (prev : list point) (g : Grouper.t) :
  p ∈ points → (∀ q, q ∈ prev → q ∈ points ∧ q.1 ≤ p.1) →
  Forall (linked_group points xdist ydist) g →
  Forall (linked_group points xdist ydist) (look_back xdist ydist g p prev).
Proof.
  intros Hp. revert g.
  induction prev as [|q prev' IH]; intros g Hprev Hg; simpl; [done |].
  assert (∀ q', q' ∈ prev' → q' ∈ points ∧ q'.1 ≤ p.1) as Hprev'
    by (intros; apply Hprev; by apply list_elem_of_further).
  destruct (Hprev q (list_elem_of_here _ _)) as [Hqin Hq].
  repeat case_decide; auto.
  apply IH; [done |].
  apply join_linked_groups; [done | done | done |]. unfold linked. lia.
Qed.

Lemma look_back_joins (xdist ydist : Z) (p : point) (prev : list point)
    (g : Grouper.t) (q : point) :
  StronglySorted (λ a b, b.1 ≤ a.1) prev →
  (∀ q', q' ∈ prev → q'.1 ≤ p.1) →
  q ∈ prev → linked xdist ydist p q →
  same_group (look_back xdist ydist g p prev) p q.
Proof.
  intros Hsorted. revert g.
  induction Hsorted as [|q0 prev' Hs' IH Hle]; intros g Hbefore Hq Hlink;
    [by apply elem_of_nil in Hq |].
  assert (∀ q', q' ∈ prev' → q'.1 ≤ p.1) as Hbefore'
    by (intros; apply Hbefore; by apply list_elem_of_further).
  pose proof (Hbefore q0 (list_elem_of_here _ _)) as Hq0.
  rewrite Forall_forall in Hle.
  simpl. apply elem_of_cons in Hq as [->|Hq].
  - destruct Hlink as [Hx Hy].
    repeat case_decide; try lia.
    apply look_back_mono.
    destruct (join_same_group g p q0) as (s & ? & ? & ?). by exists s.
  - pose proof (Hle q Hq) as Hqq0. pose proof (Hbefore' q Hq) as Hqp.
    pose proof Hlink as [Hx Hy].
    repeat case_decide; try lia; by apply IH.
Qed.

Lemma point_le_fst (p q : point) : point_le p q → p.1 ≤ q.1.
Proof. unfold point_le. lia. Qed.

Lemma scan_loop_linked_groups (points : list point) (xdist ydist : Z)
    (rest visited : list point) (g : Grouper.t) :
  (∀ v, v ∈ visited → v ∈ points) → (∀ r, r ∈ rest → r ∈ points) →
  (∀ v r, v ∈ visited → r ∈ rest → v.1 ≤ r.1) →
  StronglySorted point_le rest →
  Forall (linked_group points xdist ydist) g →
  Forall (linked_group points xdist ydist)
    (scan_loop xdist ydist g visited rest).
Proof.
  revert visited g.
  induction rest as [|p rest IH]; intros visited g Hv Hr Hcross Hs Hg;
    simpl; [done |].
  apply StronglySorted_inv in Hs as [Hs Hp]. rewrite Forall_forall in Hp.
  pose proof (Hr p (list_elem_of_here _ _)) as Hpin.
  apply IH; [| | | done |].
  - intros v [->|?]%elem_of_cons; auto.
  - intros r ?. apply Hr. by apply list_elem_of_further.
  - intros v r [->|?]%elem_of_cons Hrin.
    + by apply point_le_fst, Hp.
    + apply Hcross; [done | by apply list_elem_of_further].
  - apply look_back_linked_groups; [done | | done].
    intros q Hq. split; [by apply Hv |].
    apply Hcross; [done | apply list_elem_of_here].
Qed.

Lemma scan_loop_joins (xdist ydist : Z) (rest visited : list point)
    (g : Grouper.t) :
  StronglySorted (λ a b, b.1 ≤ a.1) visited →
  (∀ v r, v ∈ visited → r ∈ rest → v.1 ≤ r.1) →
  StronglySorted point_le rest →
  (∀ a b, a ∈ visited → b ∈ visited → a ≠ b → linked xdist ydist a b →
          same_group g a b) →
  ∀ a b, a ∈ visited ++ rest → b ∈ visited ++ rest → a ≠ b →
         linked xdist ydist a b →
         same_group (scan_loop xdist ydist g visited rest) a b.
Proof.
  revert visited g.
  induction rest as [|p rest IH]; intros visited g Hdesc Hcross Hs Hinv.
  - simpl. intros a b. rewrite !(right_id_L [] (++)). apply Hinv.
  - apply StronglySorted_inv in Hs as [Hs Hp]. rewrite Forall_forall in Hp.
    assert (∀ q, q ∈ visited → q.1 ≤ p.1) as Hbefore
      by (intros q ?; apply Hcross; [done | apply list_elem_of_here]).
    intros a b Ha Hb. simpl.
    apply (IH (p :: visited)).
    + constructor; [done |]. by apply Forall_forall.
    + intros v r [->|?]%elem_of_cons Hrin.
      * by apply point_le_fst, Hp.
      * apply Hcross; [done | by apply list_elem_of_further].
    + done.
    + intros x y [->|Hx]%elem_of_cons [->|Hy]%elem_of_cons Hne Hl.
      * done.
      * by apply look_back_joins.
      * apply same_group_sym, look_back_joins; [done | done | done |].
        by apply linked_sym.
      * apply look_back_mono. by apply Hinv.
    + rewrite elem_of_app, elem_of_cons in Ha.
      rewrite elem_of_app, elem_of_cons. tauto.
    + rewrite elem_of_app, elem_of_cons in Hb.
      rewrite elem_of_app, elem_of_cons. tauto.
Qed.

Lemma py_sort_StronglySorted (l : list point) :
  StronglySorted point_le (py_sort l).
Proof. apply (StronglySorted_merge_sort point_le). Qed.

(** Single linkage, one way: two different input points no farther apart
    than [xdist] in x and [ydist] in y end up in one union-find group. *)
Theorem scan_groups_complete (points : list point) (xdist ydist : Z)
    (p q : point) :
  p ∈ points → q ∈ points → p ≠ q → linked xdist ydist p q →
  same_group (scan_groups points xdist ydist) p q.
Proof.
  intros Hp Hq Hne Hl. unfold scan_groups, Grouper.groups.
  apply (scan_loop_joins xdist ydist (py_sort points) []).
  - constructor.
  - by intros v r ?%elem_of_nil.
  - apply py_sort_StronglySorted.
  - by intros a b ?%elem_of_nil.
  - simpl. by apply elem_of_py_sort.
  - simpl. by apply elem_of_py_sort.
  - done.
  - done.
Qed.

Lemma scan_groups_complete_witness :
  same_group (scan_groups [(1,1); (2,2); (3,3); (50,50)] 5 5) (1,1) (3,3).
Proof.
  apply (scan_groups_complete [(1,1); (2,2); (3,3); (50,50)] 5 5 (1,1) (3,3)).
  - apply list_elem_of_here.
  - do 2 apply list_elem_of_further. apply list_elem_of_here.
  - done.
  - unfold linked. simpl. lia.
Defined.

(** Single linkage, the other way: every union-find group is made of input
    points, holds no point twice, and any two of its points are joined by a
    chain of links that stays inside the group. *)
Theorem scan_groups_sound (points : list point) (xdist ydist : Z)
    (s : list point) :
  s ∈ scan_groups points xdist ydist →
  NoDup s ∧ (∀ x, x ∈ s → x ∈ points) ∧
  ∀ a b, a ∈ s → b ∈ s → chain xdist ydist s a b.
Proof.
  intros Hs. split.
  - destruct (scan_groups_wf points xdist ydist) as [Hnd _].
    apply list_elem_of_lookup in Hs as (k & Hk).
    rewrite <-(take_drop_middle _ _ _ Hk), concat_app in Hnd. simpl in Hnd.
    apply NoDup_app in Hnd as (_ & _ & Hnd).
    by apply NoDup_app in Hnd as (Hnd & _ & _).
  - assert (Forall (linked_group points xdist ydist)
              (scan_groups points xdist ydist)) as Hall.
    { unfold scan_groups, Grouper.groups.
      apply scan_loop_linked_groups.
      - by intros v ?%elem_of_nil.
      - intros r. by rewrite elem_of_py_sort.
      - by intros v r ?%elem_of_nil.
      - apply py_sort_StronglySorted.
      - constructor. }
    rewrite Forall_forall in Hall. apply (Hall s Hs).
Qed.

Lemma scan_groups_sound_witness :
  chain 5 5 [(2,2); (1,1); (3,3)] (1,1) (3,3).
Proof.
  assert ([(2,2); (1,1); (3,3)]
          ∈ scan_groups [(1,1); (2,2); (3,3); (50,50)] 5 5) as Hin.
  { vm_compute. apply list_elem_of_here. }
  apply (scan_groups_sound _ 5 5 _ Hin).
  - apply list_elem_of_further, list_elem_of_here.
  - do 2 apply list_elem_of_further. apply list_elem_of_here.
Defined.

(** Two different clusters returned by [synteny_scan] share no point, and no
    point of one is linked to a point of the other. *)
Theorem synteny_scan_clusters_apart (points : list point)
    (xdist ydist N : Z) (c1 c2 : list point) (p q : point) :
  c1 ∈ (synteny_scan points xdist ydist N).1 →
  c2 ∈ (synteny_scan points xdist ydist N).1 →
  c1 ≠ c2 → p ∈ c1 → q ∈ c2 →
  p ≠ q ∧ ¬ linked xdist ydist p q.
Proof.
  intros (g1 & Hg1 & _ & ->)%synteny_scan_clusters
         (g2 & Hg2 & _ & ->)%synteny_scan_clusters Hne Hp Hq.
  rewrite elem_of_py_sort in Hp. rewrite elem_of_py_sort in Hq.
  destruct (scan_groups_wf points xdist ydist) as [Hnd _].
  assert (p ≠ q) as Hpq.
  { intros ->. apply Hne. f_equal.
    exact (groups_disjoint _ g1 g2 q Hnd Hg1 Hg2 Hp Hq). }
  split; [done |]. intros Hl.
  assert (Forall (linked_group points xdist ydist)
            (scan_groups points xdist ydist)) as Hall.
  { unfold scan_groups, Grouper.groups. apply scan_loop_linked_groups.
    - by intros v ?%elem_of_nil.
    - intros r. by rewrite elem_of_py_sort.
    - by intros v r ?%elem_of_nil.
    - apply py_sort_StronglySorted.
    - constructor. }
  rewrite Forall_forall in Hall.
  destruct (Hall g1 Hg1) as [Hin1 _]. destruct (Hall g2 Hg2) as [Hin2 _].
  assert (same_group (scan_groups points xdist ydist) p q)
    as (s & Hs & Hps & Hqs).
  { unfold scan_groups, Grouper.groups.
    apply (scan_loop_joins xdist ydist (py_sort points) []).
    - constructor.
    - by intros v r ?%elem_of_nil.
    - apply py_sort_StronglySorted.
    - by intros a b ?%elem_of_nil.
    - simpl. apply elem_of_py_sort. by apply Hin1.
    - simpl. apply elem_of_py_sort. by apply Hin2.
    - done.
    - done. }
  apply Hne. f_equal.
  rewrite (groups_disjoint _ g1 s p Hnd Hg1 Hs Hp Hps).
  exact (groups_disjoint _ s g2 q Hnd Hs Hg2 Hqs Hq).
Qed.

Lemma synteny_scan_clusters_apart_witness :
  (1,1) ≠ (50,50) ∧ ¬ linked 5 5 (1,1) (50,50).
Proof.
  apply (synteny_scan_clusters_apart [(1,1); (2,2); (50,50); (51,51)] 5 5 2
           [(1,1); (2,2)] [(50,50); (51,51)] (1,1) (50,50)).
  - vm_compute. apply list_elem_of_here.
  - vm_compute. apply list_elem_of_further, list_elem_of_here.
  - done.
  - apply list_elem_of_here.
  - apply list_elem_of_here.
Defined.

(** ** read_blast: what is kept *)

Lemma read_blast_row_cases (qorder sorder : order) (is_self : bool)
    (seen : gset (string * string)) (filtered : list Hit) (b : BlastLine) :
  (passed_over qorder sorder seen b ∧
   read_blast_row qorder sorder is_self (seen, filtered) b = (seen, filtered))
  ∨
  (∃ qi0 q0 si0 s0,
     qorder !! query b = Some (qi0, q0) ∧ sorder !! subject b = Some (si0, s0) ∧
     (row_key b ∉ seen) ∧
     read_blast_row qorder sorder is_self (seen, filtered) b
     = (seen ∪ {[ row_key b ]},
        filtered ++ [make_hit is_self b qi0 q0 si0 s0])).
Proof.
  unfold read_blast_row, passed_over, make_hit, row_key.
  destruct (qorder !! query b) as [[qi0 q0]|]; [| left; split; [by left | done]].
  destruct (sorder !! subject b) as [[si0 s0]|];
    [| left; split; [right; by left | done]].
  case_decide as Hseen.
  - left. split; [right; by right | done].
  - right. exists qi0, q0, si0, s0. split_and!; [done | done | done |].
    by destruct (is_self && bool_decide (si0 < qi0)).
Qed.

Lemma read_blast_row_passed_over (qorder sorder : order) (is_self : bool)
    (st : gset (string * string) * list Hit) (b : BlastLine) :
  passed_over qorder sorder st.1 b →
  read_blast_row qorder sorder is_self st b = st.
Proof.
  destruct st as [seen filtered]. cbn [fst]. intros Hp.
  destruct (read_blast_row_cases qorder sorder is_self seen filtered b)
    as [[_ ->]|(qi0 & q0 & si0 & s0 & Hq & Hs & Hk & _)]; [done |].
  destruct Hp as [?|[?|?]]; congruence.
Qed.

Lemma passed_over_mono (qorder sorder : order)
    (seen seen' : gset (string * string)) (b : BlastLine) :
  seen ⊆ seen' → passed_over qorder sorder seen b →
  passed_over qorder sorder seen' b.
Proof. unfold passed_over. intros Hsub [?|[?|?]]; auto. Qed.

(** After the loop every row it has read would be passed over. *)
Lemma read_blast_fold_covers (qorder sorder : order) (is_self : bool)
    (rows : list BlastLine) (st : gset (string * string) * list Hit) :
  st.1 ⊆ (foldl (read_blast_row qorder sorder is_self) st rows).1 ∧
  ∀ b, b ∈ rows →
    passed_over qorder sorder
      (foldl (read_blast_row qorder sorder is_self) st rows).1 b.
Proof.
  revert st. induction rows as [|b rows IH]; intros st; simpl.
  - split; [done | by intros b ?%elem_of_nil].
  - destruct (IH (read_blast_row qorder sorder is_self st b)) as [IH1 IH2].
    assert (st.1 ⊆ (read_blast_row qorder sorder is_self st b).1 ∧
            passed_over qorder sorder
              (read_blast_row qorder sorder is_self st b).1 b) as [H1 H2].
    { destruct st as [seen filtered]. cbn [fst].
      destruct (read_blast_row_cases qorder sorder is_self seen filtered b)
        as [[Hp ->]|(qi0 & q0 & si0 & s0 & Hq & Hs & Hk & ->)]; cbn [fst].
      - done.
      - split; [apply union_subseteq_l |]. right; right.
        apply elem_of_union. right. by apply elem_of_singleton. }
    split; [by etrans |].
    intros b' [->|Hb']%elem_of_cons; [| by apply IH2].
    by apply (passed_over_mono _ _ _ _ _ IH1).
Qed.

Lemma read_blast_fold_noop (qorder sorder : order) (is_self : bool)
    (rows : list BlastLine) (st : gset (string * string) * list Hit) :
  (∀ b, b ∈ rows → passed_over qorder sorder st.1 b) →
  foldl (read_blast_row qorder sorder is_self) st rows = st.
Proof.
  induction rows as [|b rows IH]; intros Hall; simpl; [done |].
  rewrite read_blast_row_passed_over by (apply Hall, list_elem_of_here).
  apply IH. intros b' ?. by apply Hall, list_elem_of_further.
Qed.

(** Rows that repeat earlier rows of the file add nothing: reading
    [rows ++ again] gives what reading [rows] gives, when every row of
    [again] already occurs in [rows]. *)
Theorem read_blast_repeated_rows (rows again : list BlastLine)
    (qorder sorder : order) (is_self : bool) :
  (∀ b, b ∈ again → b ∈ rows) →
  read_blast (rows ++ again) qorder sorder is_self
  = read_blast rows qorder sorder is_self.
Proof.
  intros Hagain. unfold read_blast. rewrite foldl_app.
  rewrite read_blast_fold_noop; [done |].
  intros b Hb. by apply read_blast_fold_covers, Hagain.
Qed.

Lemma read_blast_repeated_rows_witness :
  read_blast ([ {| query := "a"; subject := "b" |} ]
              ++ [ {| query := "a"; subject := "b" |} ])
    two_genes two_genes false
  = read_blast [ {| query := "a"; subject := "b" |} ]
      two_genes two_genes false.
Proof.
  apply (read_blast_repeated_rows [ {| query := "a"; subject := "b" |} ]
           [ {| query := "a"; subject := "b" |} ] two_genes two_genes false).
  intros b Hb. exact Hb.
Defined.

Lemma read_blast_fold_kept (qorder sorder : order) (is_self : bool)
    (rows : list BlastLine) (st : gset (string * string) * list Hit) :
  ∃ kept,
    (foldl (read_blast_row qorder sorder is_self) st rows).2 = st.2 ++ kept ∧
    line <$> kept `sublist_of` rows ∧
    NoDup (row_key ∘ line <$> kept) ∧
    (∀ h, h ∈ kept → row_key (line h) ∉ st.1) ∧
    ∀ h, h ∈ kept →
      ∃ qi0 q0 si0 s0,
        qorder !! query (line h) = Some (qi0, q0) ∧
        sorder !! subject (line h) = Some (si0, s0) ∧
        h = make_hit is_self (line h) qi0 q0 si0 s0.
Proof.
  revert st. induction rows as [|b rows IH]; intros st; simpl.
  - exists []. rewrite (right_id_L [] (++)).
    split_and!; [done | done | constructor | |]; by intros h ?%elem_of_nil.
  - destruct st as [seen filtered].
    destruct (read_blast_row_cases qorder sorder is_self seen filtered b)
      as [[Hp ->]|(qi0 & q0 & si0 & s0 & Hq & Hs & Hk & ->)].
    + destruct (IH (seen, filtered)) as (kept & -> & Hsub & Hnd & Hnew & Hh).
      exists kept. split_and!; [done | by apply sublist_cons | done..].
    + destruct (IH (seen ∪ {[ row_key b ]},
                    filtered ++ [make_hit is_self b qi0 q0 si0 s0]))
        as (kept & -> & Hsub & Hnd & Hnew & Hh). simpl in *.
      assert (line (make_hit is_self b qi0 q0 si0 s0) = b) as Hline
        by (unfold make_hit; by destruct (is_self && _)).
      exists (make_hit is_self b qi0 q0 si0 s0 :: kept).
      split_and!.
      * by rewrite <-(assoc_L (++)).
      * rewrite fmap_cons, Hline. by apply sublist_skip.
      * rewrite fmap_cons. simpl. rewrite Hline. constructor; [| done].
        intros (h & Hkey & Hin)%list_elem_of_fmap. simpl in Hkey.
        apply (Hnew h Hin). rewrite <-Hkey. set_solver.
      * intros h [->|Hin]%elem_of_cons.
        -- by rewrite Hline.
        -- specialize (Hnew h Hin). set_solver.
      * intros h [->|Hin]%elem_of_cons; [| by apply Hh].
        rewrite Hline. eauto 10.
Qed.

(** The hits of [read_blast] come from rows of the file, in the order of the
    file, and no two of them come from rows with the same
    [(query, subject)]. *)
Theorem read_blast_kept_rows (blast_file : list BlastLine)
    (qorder sorder : order) (is_self : bool) :
  line <$> read_blast blast_file qorder sorder is_self
    `sublist_of` blast_file ∧
  NoDup (row_key ∘ line <$> read_blast blast_file qorder sorder is_self).
Proof.
  unfold read_blast.
  destruct (read_blast_fold_kept qorder sorder is_self blast_file (∅, []))
    as (kept & -> & Hsub & Hnd & _ & _). done.
Qed.

(** Every hit of [read_blast] carries the indices and the chromosomes of the
    two accessions of its own row; in a self comparison with the query
    index above the subject index the two roles are exchanged in the hit,
    while the row keeps its [query] and [subject]. *)
Theorem read_blast_hit_of_row (blast_file : list BlastLine)
    (qorder sorder : order) (is_self : bool) (h : Hit) :
  h ∈ read_blast blast_file qorder sorder is_self →
  ∃ qi0 q0 si0 s0,
    qorder !! query (line h) = Some (qi0, q0) ∧
    sorder !! subject (line h) = Some (si0, s0) ∧
    h = make_hit is_self (line h) qi0 q0 si0 s0.
Proof.
  unfold read_blast.
  destruct (read_blast_fold_kept qorder sorder is_self blast_file (∅, []))
    as (kept & -> & _ & _ & _ & Hh). simpl. apply Hh.
Qed.

Lemma read_blast_hit_of_row_witness :
  ∃ qi0 q0 si0 s0,
    two_genes !! "b" = Some (qi0, q0) ∧ two_genes !! "a" = Some (si0, s0) ∧
    {| line := {| query := "b"; subject := "a" |};
       qseqid := "chr1"; sseqid := "chr1"; qi := 0; si := 1 |}
    = make_hit true {| query := "b"; subject := "a" |} qi0 q0 si0 s0.
Proof.
  apply (read_blast_hit_of_row [ {| query := "b"; subject := "a" |} ]
           two_genes two_genes true
           {| line := {| query := "b"; subject := "a" |};
              qseqid := "chr1"; sseqid := "chr1"; qi := 0; si := 1 |}).
  vm_compute. apply list_elem_of_here.
Defined.

(** ** group_hits and read_anchors: what is stored under a key *)

Lemma lookup_append_to (d : chr_pair_points) (k k' : string * string)
    (v : point) :
  append_to d k v !! k'
  = if decide (k = k') then Some (default [] (d !! k) ++ [v]) else d !! k'.
Proof.
  unfold append_to. case_decide as Hk.
  - subst k'. by rewrite lookup_insert_eq.
  - by rewrite lookup_insert_ne.
Qed.

Section collect_facts.

Context {X : Type} (entry : X → option ((string * string) * point)).

Lemma collect_lookup (l : list X) (d : chr_pair_points)
    (k : string * string) :
  default [] (collect entry d l !! k)
  = default [] (d !! k) ++ entries_at entry k l.
Proof.
  revert d. induction l as [|x l IH]; intros d.
  - simpl. by rewrite (right_id_L [] (++)).
  - unfold collect, entries_at in *. cbn [foldl omap list_omap].
    destruct (entry x) as [[k' v]|]; [| apply IH].
    rewrite IH, lookup_append_to.
    destruct (decide (k' = k)) as [->|Hne].
    + simpl. by rewrite <-(assoc_L (++)).
    + done.
Qed.

Lemma collect_is_Some (l : list X) (d : chr_pair_points)
    (k : string * string) :
  is_Some (collect entry d l !! k) ↔
  is_Some (d !! k) ∨ ∃ x v, x ∈ l ∧ entry x = Some (k, v).
Proof.
  revert d. induction l as [|x l IH]; intros d.
  - simpl. split; [by left |].
    intros [?|(x & v & ?%elem_of_nil & _)]; done.
  - unfold collect in *. cbn [foldl]. rewrite IH.
    destruct (entry x) as [[k' v]|] eqn:E.
    + rewrite lookup_append_to. split.
      * intros [Hs|(y & w & Hy & Hw)].
        -- case_decide as Hk; [| by left].
           subst k'. right. exists x, v. split; [apply list_elem_of_here | done].
        -- right. exists y, w. split; [by apply list_elem_of_further | done].
      * intros [Hs|(y & w & [->|Hy]%elem_of_cons & Hw)].
        -- left. case_decide; [by eexists | done].
        -- left. rewrite E in Hw. injection Hw as -> ->.
           rewrite decide_True by done. by eexists.
        -- right. eauto.
    + split.
      * intros [?|(y & w & Hy & Hw)]; [by left |].
        right. exists y, w. split; [by apply list_elem_of_further | done].
      * intros [?|(y & w & [->|Hy]%elem_of_cons & Hw)]; [by left | | ].
        -- congruence.
        -- right. eauto.
Qed.

Lemma collect_nonempty (l : list X) (d : chr_pair_points) :
  (∀ k pts, d !! k = Some pts → pts ≠ []) →
  ∀ k pts, collect entry d l !! k = Some pts → pts ≠ [].
Proof.
  revert d. induction l as [|x l IH]; intros d Hd; [done |].
  unfold collect in *. cbn [foldl]. apply IH.
  destruct (entry x) as [[k' v]|]; [| done].
  intros k pts. rewrite lookup_append_to. case_decide; [| by apply Hd].
  intros [= <-]. by destruct (default [] (d !! k')).
Qed.

End collect_facts.

Lemma group_hits_collect (blasts : list Hit) :
  group_hits blasts = collect hit_entry ∅ blasts.
Proof. done. Qed.

Lemma read_anchors_collect (anchor_file : list AnchorRow)
    (qorder sorder : order) :
  read_anchors anchor_file qorder sorder
  = collect (anchor_entry qorder sorder) ∅ anchor_file.
Proof.
  unfold read_anchors, collect. generalize (∅ : chr_pair_points).
  induction anchor_file as [|row rows IH]; intros d; [done |].
  cbn [foldl]. rewrite IH. f_equal.
  unfold read_anchors_row, anchor_entry. destruct row as [|a b]; [done |].
  destruct (qorder !! a) as [[qi0 q0]|]; [| done].
  by destruct (sorder !! b) as [[si0 s0]|].
Qed.

Lemma entries_at_hits (k : string * string) (blasts : list Hit) :
  entries_at hit_entry k blasts
  = (λ b, (qi b, si b)) <$> filter (λ b, (qseqid b, sseqid b) = k) blasts.
Proof.
  unfold entries_at, hit_entry.
  induction blasts as [|b blasts IH]; [done |].
  cbn [omap list_omap]. rewrite filter_cons.
  case_decide; simpl; by rewrite IH.
Qed.

(** [group_hits] keeps, under each chromosome pair, the points of the hits
    of that pair in the order of the input, and it has a key for a pair
    exactly when some hit has that pair. *)
Theorem group_hits_groups (blasts : list Hit) (k : string * string) :
  group_hits blasts !! k
  = if decide (filter (λ b, (qseqid b, sseqid b) = k) blasts = []) then None
    else Some ((λ b, (qi b, si b))
               <$> filter (λ b, (qseqid b, sseqid b) = k) blasts).
Proof.
  pose proof (collect_lookup hit_entry blasts ∅ k) as Hl.
  pose proof (collect_is_Some hit_entry blasts ∅ k) as Hs.
  rewrite <-group_hits_collect in Hl, Hs.
  rewrite lookup_empty, entries_at_hits in Hl. simpl in Hl.
  case_decide as Hf.
  - destruct (group_hits blasts !! k) as [pts|] eqn:E; [| done].
    exfalso. destruct Hs as [Hs _].
    destruct (Hs (mk_is_Some _ _ eq_refl))
      as [[? Hq]|(b & v & Hb & Hv)].
    + by rewrite lookup_empty in Hq.
    + unfold hit_entry in Hv. injection Hv as Hk _.
      assert (b ∈ filter (λ b, (qseqid b, sseqid b) = k) blasts) as Hin
        by (by apply list_elem_of_filter).
      rewrite Hf in Hin. by apply elem_of_nil in Hin.
  - destruct (group_hits blasts !! k) as [pts|] eqn:E.
    + simpl in Hl. by rewrite Hl.
    + simpl in Hl. symmetry in Hl. apply fmap_nil_inv in Hl. done.
Qed.

Lemma read_anchors_elem_of (anchor_file : list AnchorRow)
    (qorder sorder : order) (k : string * string) (p : point) :
  p ∈ default [] (read_anchors anchor_file qorder sorder !! k) ↔
  ∃ a b q0 s0, AnchorPair a b ∈ anchor_file ∧
    qorder !! a = Some (p.1, q0) ∧ sorder !! b = Some (p.2, s0) ∧
    k = (seqid q0, seqid s0).
Proof.
  rewrite read_anchors_collect, collect_lookup, lookup_empty. simpl.
  unfold entries_at. rewrite list_elem_of_omap. split.
  - intros (row & Hrow & Hentry).
    destruct row as [|a b]; [done |]. simpl in Hentry.
    destruct (qorder !! a) as [[qi0 q0]|] eqn:Ha; [| done].
    destruct (sorder !! b) as [[si0 s0]|] eqn:Hb; [| done].
    case_decide as Hk; [| done]. injection Hentry as <-.
    exists a, b, q0, s0. by rewrite Ha, Hb.
  - intros (a & b & q0 & s0 & Hrow & Ha & Hb & ->).
    exists (AnchorPair a b). split; [done |]. simpl.
    rewrite Ha, Hb. rewrite decide_True by done. by destruct p.
Qed.

Lemma group_hits_lookup (blasts : list Hit) (k : string * string) :
  default [] (group_hits blasts !! k)
  = (λ b, (qi b, si b)) <$> filter (λ b, (qseqid b, sseqid b) = k) blasts.
Proof.
  rewrite group_hits_collect, collect_lookup, lookup_empty, entries_at_hits.
  done.
Qed.

(** [read_anchors] stores a point under a chromosome pair exactly for the
    rows whose two accessions are in the lookups: the point is the pair of
    their indices and the key the pair of their chromosomes. Deflines and
    rows with an unknown accession leave no trace, and no key is left with
    an empty list. *)
Theorem read_anchors_points (anchor_file : list AnchorRow)
    (qorder sorder : order) (k : string * string) :
  (∀ p, p ∈ default [] (read_anchors anchor_file qorder sorder !! k) ↔
        ∃ a b q0 s0, AnchorPair a b ∈ anchor_file ∧
          qorder !! a = Some (p.1, q0) ∧ sorder !! b = Some (p.2, s0) ∧
          k = (seqid q0, seqid s0)) ∧
  read_anchors anchor_file qorder sorder !! k ≠ Some [].
Proof.
  split.
  - intros p. apply read_anchors_elem_of.
  - rewrite read_anchors_collect. intros Hk.
    by apply (collect_nonempty (anchor_entry qorder sorder) anchor_file ∅
                ltac:(intros ? ?; by rewrite lookup_empty) k []).
Qed.

(** ** batch_scan and liftover: one chromosome pair at a time *)

Lemma elem_of_sorted_keys (d : chr_pair_points) (k : string * string) :
  k ∈ sorted_keys d ↔ is_Some (d !! k).
Proof.
  unfold sorted_keys.
  rewrite (merge_sort_Permutation key_le), elem_of_elements.
  apply elem_of_dom.
Qed.

Lemma elem_of_foldl_app {A K} (f : K → list A) (keys : list K)
    (acc : list A) (x : A) :
  x ∈ foldl (λ out k, out ++ f k) acc keys ↔
  x ∈ acc ∨ ∃ k, k ∈ keys ∧ x ∈ f k.
Proof.
  revert acc. induction keys as [|k keys IH]; intros acc; simpl.
  - split; [by left |]. intros [?|(k & ?%elem_of_nil & _)]; done.
  - rewrite IH, elem_of_app. split.
    + intros [[?|?]|(k' & ? & ?)]; [by left | |].
      * right. exists k. split; [apply list_elem_of_here | done].
      * right. exists k'. split; [by apply list_elem_of_further | done].
    + intros [?|(k' & [->|?]%elem_of_cons & ?)]; [by left; left | |].
      * left. by right.
      * right. eauto.
Qed.

Lemma scan_groups_all_linked (points : list point) (xdist ydist : Z) :
  Forall (linked_group points xdist ydist) (scan_groups points xdist ydist).
Proof.
  unfold scan_groups, Grouper.groups. apply scan_loop_linked_groups.
  - by intros v ?%elem_of_nil.
  - intros r. by rewrite elem_of_py_sort.
  - by intros v r ?%elem_of_nil.
  - apply py_sort_StronglySorted.
  - constructor.
Qed.

Lemma synteny_scan_nil (xdist ydist N : Z) :
  (synteny_scan [] xdist ydist N).1 = [].
Proof. done. Qed.

(** [batch_scan] returns exactly the clusters that [synteny_scan] finds in
    the hits of each chromosome pair taken alone. *)
Theorem batch_scan_per_pair (points : list Hit) (xdist ydist N : Z)
    (c : list point) :
  c ∈ batch_scan points xdist ydist N ↔
  ∃ k, c ∈ (synteny_scan
              ((λ b, (qi b, si b))
               <$> filter (λ b, (qseqid b, sseqid b) = k) points)
              xdist ydist N).1.
Proof.
  unfold batch_scan.
  rewrite (elem_of_foldl_app
    (λ k, (synteny_scan (default [] (group_hits points !! k))
             xdist ydist N).1)).
  setoid_rewrite group_hits_lookup. split.
  - intros [?%elem_of_nil|(k & _ & Hc)]; [done | eauto].
  - intros (k & Hc). right. exists k. split; [| done].
    apply elem_of_sorted_keys.
    pose proof (group_hits_lookup points k) as Hl.
    destruct (group_hits points !! k) as [pts|]; [by eexists |].
    simpl in Hl. rewrite <-Hl, synteny_scan_nil in Hc.
    by apply elem_of_nil in Hc.
Qed.

(** A cluster of [batch_scan] never mixes chromosome pairs: its points are
    hits of one pair, and its score is at least [N]. *)
Theorem batch_scan_cluster (points : list Hit) (xdist ydist N : Z)
    (c : list point) :
  c ∈ batch_scan points xdist ydist N →
  N ≤ _score c ∧
  ∃ k, ∀ p, p ∈ c →
    ∃ b, b ∈ points ∧ (qseqid b, sseqid b) = k ∧ (qi b, si b) = p.
Proof.
  unfold batch_scan.
  rewrite (elem_of_foldl_app
    (λ k, (synteny_scan (default [] (group_hits points !! k))
             xdist ydist N).1)).
  intros [?%elem_of_nil|(k & _ & Hc)]; [done |].
  rewrite group_hits_lookup in Hc.
  apply synteny_scan_clusters in Hc as (g & Hg & Hs & ->).
  split; [by rewrite _score_py_sort |].
  exists k. intros p Hp. rewrite elem_of_py_sort in Hp.
  pose proof (scan_groups_all_linked
    ((λ b, (qi b, si b)) <$> filter (λ b, (qseqid b, sseqid b) = k) points)
    xdist ydist) as Hall.
  rewrite Forall_forall in Hall. destruct (Hall g Hg) as [Hin _].
  apply Hin, list_elem_of_fmap in Hp as (b & -> & [Hk Hb]%list_elem_of_filter).
  by exists b.
Qed.

Lemma batch_scan_cluster_witness : 2 ≤ _score [(1, 1); (2, 2)].
Proof.
  apply (batch_scan_cluster
    [ {| line := {| query := "a"; subject := "x" |};
         qseqid := "chr1"; sseqid := "chr1"; qi := 2; si := 2 |};
      {| line := {| query := "b"; subject := "y" |};
         qseqid := "chr1"; sseqid := "chr2"; qi := 3; si := 3 |};
      {| line := {| query := "c"; subject := "z" |};
         qseqid := "chr1"; sseqid := "chr1"; qi := 1; si := 1 |} ]
    5 5 2).
  vm_compute. apply list_elem_of_here.
Defined.

Lemma foldl_pointwise {A K} (f g : A → K → A) (keys : list K) (acc : A) :
  (∀ a k, f a k = g a k) → foldl f acc keys = foldl g acc keys.
Proof.
  intros Hfg. revert acc.
  induction keys as [|k keys IH]; intros acc; simpl; [done |].
  by rewrite Hfg, IH.
Qed.

Lemma liftover_pairs_elem_of (filtered_blast : list Hit)
    (all_anchors : chr_pair_points) (dist : Z) (p : point) :
  p ∈ liftover_pairs filtered_blast all_anchors dist ↔
  ∃ k anchors b a,
    all_anchors !! k = Some anchors ∧
    b ∈ filtered_blast ∧ (qseqid b, sseqid b) = k ∧ (qi b, si b) = p ∧
    a ∈ anchors ∧ l1_dist a p < dist.
Proof.
  unfold liftover_pairs.
  rewrite (foldl_pointwise _
    (λ out k, out ++
       (λ k, if decide (default [] (group_hits filtered_blast !! k) = [])
             then []
             else row_xy <$>
                  synteny_liftover
                    ((λ p, {| row_xy := p; row_rest := [] |})
                     <$> default [] (group_hits filtered_blast !! k))
                    (default [] (all_anchors !! k)) dist) k))
    by (intros out k; simpl; case_decide;
        [by rewrite (right_id_L [] (++)) | done]).
  rewrite elem_of_foldl_app.
  split.
  - intros [?%elem_of_nil|(k & Hk%elem_of_sorted_keys & Hp)]; [done |].
    destruct Hk as [anchors Hk]. rewrite Hk in Hp. simpl in Hp.
    case_decide; [by apply elem_of_nil in Hp |].
    apply list_elem_of_fmap in Hp as (r & -> & Hr).
    unfold synteny_liftover in Hr.
    apply list_elem_of_filter in Hr as [Hq Hr].
    apply query_missing, Exists_exists in Hq as (a & Ha & Hlt).
    apply list_elem_of_fmap in Hr as (xy & -> & Hxy).
    rewrite group_hits_lookup in Hxy.
    apply list_elem_of_fmap in Hxy as (b & -> & [Hkey Hb]%list_elem_of_filter).
    exists k, anchors, b, a. done.
  - intros (k & anchors & b & a & Hk & Hb & Hkey & <- & Ha & Hlt).
    right. exists k. split; [apply elem_of_sorted_keys; by eexists |].
    assert ((qi b, si b) ∈ default [] (group_hits filtered_blast !! k)) as Hin.
    { rewrite group_hits_lookup. apply list_elem_of_fmap.
      exists b. split; [done |]. by apply list_elem_of_filter. }
    cbn beta. case_decide as Hnil; [rewrite <-Hnil; exact Hin |].
    rewrite Hk. simpl. apply list_elem_of_fmap.
    exists {| row_xy := (qi b, si b); row_rest := [] |}. split; [done |].
    unfold synteny_liftover. apply list_elem_of_filter. split.
    + apply query_missing, Exists_exists. by exists a.
    + apply list_elem_of_fmap. by exists (qi b, si b).
Qed.

(** [liftover], end to end: a pair is lifted exactly when it is a hit kept
    by [read_blast] and some anchor row with known accessions lies on the
    chromosome pair of the hit at an L1 distance below [dist]. Hits on a
    chromosome pair without anchors are never lifted. *)
Theorem liftover_lifted (blast_file : list BlastLine)
    (anchor_file : list AnchorRow) (qorder sorder : order) (is_self : bool)
    (dist : Z) (p : point) :
  p ∈ liftover blast_file anchor_file qorder sorder is_self dist ↔
  ∃ h a b q0 s0 anchor,
    h ∈ read_blast blast_file qorder sorder is_self ∧ (qi h, si h) = p ∧
    AnchorPair a b ∈ anchor_file ∧
    qorder !! a = Some (anchor.1, q0) ∧ sorder !! b = Some (anchor.2, s0) ∧
    (seqid q0, seqid s0) = (qseqid h, sseqid h) ∧
    l1_dist anchor p < dist.
Proof.
  unfold liftover. rewrite liftover_pairs_elem_of. split.
  - intros (k & anchors & h & anchor & Hk & Hh & Hkey & Hp & Ha & Hlt).
    assert (anchor ∈ default []
              (read_anchors anchor_file qorder sorder !! k)) as Hin
      by (by rewrite Hk).
    apply read_anchors_elem_of in Hin as (a & b & q0 & s0 & ? & ? & ? & ->).
    exists h, a, b, q0, s0, anchor. done.
  - intros (h & a & b & q0 & s0 & anchor & Hh & Hp & Hrow & Ha & Hb & Hkey & Hlt).
    assert (anchor ∈ default []
              (read_anchors anchor_file qorder sorder !! (seqid q0, seqid s0)))
      as Hin by (apply read_anchors_elem_of; by exists a, b, q0, s0).
    destruct (read_anchors anchor_file qorder sorder !! (seqid q0, seqid s0))
      as [anchors|] eqn:E; [| by apply elem_of_nil in Hin].
    exists (seqid q0, seqid s0), anchors, h, anchor. done.
Qed.

(** ** synteny_liftover: the distance bound *)

Lemma l1_dist_nonneg (a b : point) : 0 ≤ l1_dist a b.
Proof. unfold l1_dist. lia. Qed.

(** With a bound of zero or less nothing is lifted, not even a hit that sits
    on an anchor. *)
Theorem synteny_liftover_no_room (points : list Row) (anchors : list point)
    (dist : Z) :
  dist ≤ 0 → synteny_liftover points anchors dist = [].
Proof.
  intros Hd. unfold synteny_liftover.
  induction points as [|r points IH]; [done |].
  rewrite filter_cons, decide_False; [done |].
  rewrite query_missing, Exists_exists. intros (a & _ & Hlt).
  pose proof (l1_dist_nonneg a (row_xy r)). lia.
Qed.

Lemma synteny_liftover_no_room_witness :
  synteny_liftover [ {| row_xy := (3, 4); row_rest := [] |} ] [(3, 4)] 0 = [].
Proof.
  apply (synteny_liftover_no_room
           [ {| row_xy := (3, 4); row_rest := [] |} ] [(3, 4)] 0). lia.
Defined.

(** The lifted hits are a subsequence of the input, and a larger bound or
    more anchors only add hits. *)
Theorem synteny_liftover_monotone (points : list Row)
    (anchors anchors' : list point) (dist dist' : Z) :
  dist ≤ dist' → anchors ⊆ anchors' →
  synteny_liftover points anchors dist
    `sublist_of` synteny_liftover points anchors' dist' ∧
  synteny_liftover points anchors' dist' `sublist_of` points.
Proof.
  intros Hd Ha. unfold synteny_liftover. split.
  - induction points as [|r points IH]; [done |].
    rewrite !filter_cons.
    destruct (decide ((cKDTree.query anchors (row_xy r) dist).2
                      ≠ length anchors)) as [Hq|Hq].
    + rewrite decide_True; [by apply sublist_skip |].
      apply query_missing, Exists_exists.
      apply query_missing, Exists_exists in Hq as (a & Hin & Hlt).
      exists a. split; [by apply Ha | lia].
    + case_decide; [by apply sublist_cons | done].
  - apply sublist_filter.
Qed.

Lemma synteny_liftover_monotone_witness :
  synteny_liftover [ {| row_xy := (0, 0); row_rest := [] |} ] [(0, 1)] 1
    `sublist_of`
  synteny_liftover [ {| row_xy := (0, 0); row_rest := [] |} ]
    [(0, 1); (9, 9)] 2.
Proof.
  apply (synteny_liftover_monotone
           [ {| row_xy := (0, 0); row_rest := [] |} ]
           [(0, 1)] [(0, 1); (9, 9)] 1 2); [lia |].
  intros a ->%list_elem_of_singleton. apply list_elem_of_here.
Defined.

(** ** get_segments: where the boundaries come from *)

Lemma sweep_boundaries (LEFT RIGHT minsegment : Z) (evs : list (Z * Z))
    (current_left : Z) (seg : Z * Z) :
  seg ∈ sweep LEFT RIGHT minsegment current_left evs →
  (seg.1 = current_left ∨ (seg.1, LEFT) ∈ evs ∨ (seg.1, NUL) ∈ evs) ∧
  ((seg.2, RIGHT) ∈ evs ∨ (seg.2 + 1, NUL) ∈ evs).
Proof.
  revert current_left.
  induction evs as [|[a ai] rest IH]; intros cl; simpl;
    [by intros ?%elem_of_nil |].
  assert (∀ cl', (cl' = cl ∨ (cl' = a ∧ ai = LEFT) ∨ (cl' = a ∧ ai = NUL)) →
    seg ∈ sweep LEFT RIGHT minsegment cl' rest →
    (seg.1 = cl ∨ (seg.1, LEFT) ∈ (a, ai) :: rest
     ∨ (seg.1, NUL) ∈ (a, ai) :: rest) ∧
    ((seg.2, RIGHT) ∈ (a, ai) :: rest ∨ (seg.2 + 1, NUL) ∈ (a, ai) :: rest))
    as Hrest.
  { intros cl' Hcl' [H1 H2]%IH. split.
    - destruct H1 as [->|[?|?]].
      + destruct Hcl' as [?|[[-> ->]|[-> ->]]];
          [by left | right; left | right; right]; apply list_elem_of_here.
      + right; left. by apply list_elem_of_further.
      + right; right. by apply list_elem_of_further.
    - destruct H2; [left | right]; by apply list_elem_of_further. }
  set (cl1 := if decide (ai = LEFT) then a else cl).
  assert (cl1 = cl ∨ (cl1 = a ∧ ai = LEFT) ∨ (cl1 = a ∧ ai = NUL)) as Hcl1
    by (unfold cl1; case_decide; auto).
  destruct (decide (ai = RIGHT)) as [->|HR].
  - intros [->|Hin]%elem_of_cons; [| by apply (Hrest cl1)].
    simpl. split; [| left; apply list_elem_of_here].
    destruct Hcl1 as [?|[[-> ?]|[-> ?]]]; [by left | right; left |];
      [subst; apply list_elem_of_here |].
    right; right. subst. apply list_elem_of_here.
  - destruct (decide (ai = NUL)) as [->|HN]; [| by apply (Hrest cl1)].
    destruct (decide (a - cl1 < minsegment)); [by apply (Hrest cl1) |].
    intros [->|Hin]%elem_of_cons; [| apply (Hrest a); auto].
    simpl. split.
    + destruct Hcl1 as [?|[[-> ?]|[-> ?]]]; [by left | right; left |];
        [subst; apply list_elem_of_here |].
      right; right. apply list_elem_of_here.
    + right. replace (a - 1 + 1) with a by lia. apply list_elem_of_here.
Qed.

(** [get_segments] invents no boundary: a segment starts at 0, at the start
    of a forced break or at the start of a selected range, and it ends at
    the end of a forced break or just before the start of a selected
    range. *)
Theorem get_segments_boundaries (LEFT RIGHT : Z) (ranges : list Range)
    (extra : list (Z * Z)) (minsegment : Z) (seg : Z * Z) :
  LEFT ≠ RIGHT → LEFT ≠ NUL → RIGHT ≠ NUL →
  seg ∈ get_segments LEFT RIGHT ranges extra minsegment →
  (seg.1 = 0 ∨ (∃ x, x ∈ extra ∧ seg.1 = x.1) ∨
   (∃ r, r ∈ (range_chain ranges).1 ∧ seg.1 = r_start r)) ∧
  ((∃ x, x ∈ extra ∧ seg.2 = x.2) ∨
   (∃ r, r ∈ (range_chain ranges).1 ∧ seg.2 = r_start r - 1)).
Proof.
  intros HLR HLN HRN. unfold get_segments.
  destruct (range_chain ranges) as [selected score]. simpl.
  intros [H1 H2]%sweep_boundaries.
  assert (∀ a tag, (a, tag) ∈ make_endpoints LEFT RIGHT selected extra →
    (tag = NUL ∧ ∃ r, r ∈ selected ∧ a = r_start r) ∨
    (tag = LEFT ∧ ∃ x, x ∈ extra ∧ a = x.1) ∨
    (tag = RIGHT ∧ ∃ x, x ∈ extra ∧ a = x.2)) as Hev.
  { intros a tag. unfold make_endpoints.
    rewrite elem_of_py_sort, !elem_of_app, !list_elem_of_fmap.
    intros [(r & [= -> ->] & ?)|[(x & [= -> ->] & ?)|(x & [= -> ->] & ?)]];
      eauto 10. }
  split.
  - destruct H1 as [?|[H1|H1]]; [by left | |];
      apply Hev in H1 as [[? ?]|[[? ?]|[? ?]]]; try done; auto.
  - destruct H2 as [H2|H2];
      apply Hev in H2 as [[? (r & ? & ?)]|[[? ?]|[? ?]]]; try done; auto.
    right. exists r. split; [done | lia].
Qed.

Lemma get_segments_boundaries_witness :
  (∃ x, x ∈ [(0, 99)] ∧ 89 = x.2) ∨
  (∃ r, r ∈ (range_chain [block 90 95 1]).1 ∧ 89 = r_start r - 1).
Proof.
  apply (get_segments_boundaries 0 1 [block 90 95 1] [(0, 99)] 40 (0, 89));
    [done | done | done |].
  vm_compute. apply list_elem_of_here.
Defined.

(** ** write_PAD_bed: genes and their pads *)

Lemma tiles_cons_inv (from upto : Z) (ab : Z * Z) (segs : list (Z * Z)) :
  tiles from (ab :: segs) upto →
  ab.1 = from ∧ ab.1 ≤ ab.2 ∧ tiles (ab.2 + 1) segs upto.
Proof. by destruct ab. Qed.

Lemma index_Some {A} (l : list A) (j : nat) (x : A) :
  l !! j = Some x → index l j = inr x.
Proof. unfold index. by intros ->. Qed.

Lemma pad_loop_tiles (prefix : string) (pads : list (Z * Z))
    (gene_count : Z) (bed : list BedLine) (i : Z) (j : nat) (ab : Z * Z) :
  pads !! j = Some ab → tiles ab.1 (drop j pads) gene_count →
  ab.1 ≤ i ≤ ab.2 + 1 → i + Z.of_nat (length bed) = gene_count →
  ∃ lines,
    pad_loop pads (padname prefix <$> pads) i j bed = inr lines ∧
    length lines = length bed ∧
    ∀ k x, bed !! k = Some x →
      ∃ pad, pad ∈ pads ∧ pad.1 ≤ i + Z.of_nat k ≤ pad.2 ∧
        lines !! k = Some {| pl_pad := padname prefix pad;
                             pl_start := i + Z.of_nat k;
                             pl_end := i + Z.of_nat k + 1;
                             pl_accn := accn x |}.
Proof.
  revert i j ab.
  induction bed as [|x bed IH]; intros i j ab Hj Htiles Hi Hlen.
  - exists []. split_and!; [done | done |]. by intros k y ?.
  - cbn [length] in Hlen. cbn [pad_loop]. rewrite (index_Some _ _ _ Hj).
    cbn [mbind result_bind].
    rewrite (drop_S _ _ _ Hj) in Htiles.
    apply tiles_cons_inv in Htiles as (_ & Hab & Hrest).
    assert (∃ j' ab', pads !! j' = Some ab' ∧
              tiles ab'.1 (drop j' pads) gene_count ∧ ab'.1 ≤ i ≤ ab'.2 ∧
              (if decide (ab.2 < i)
               then (index pads (S j) ≫= λ _, mret (S j))
               else mret j) = (inr j' : result nat))
      as (j' & ab' & Hj' & Htiles' & Hi' & ->).
    { case_decide as Hlt.
      - destruct (drop (S j) pads) as [|ab' rest] eqn:Hdrop.
        { simpl in Hrest. lia. }
        assert (pads !! S j = Some ab') as Hj'.
        { rewrite <-(Nat.add_0_r (S j)), <-lookup_drop, Hdrop. done. }
        pose proof Hrest as (Ha' & Hab' & _)%tiles_cons_inv.
        exists (S j), ab'. rewrite (index_Some _ _ _ Hj').
        split_and!; [done | | lia | lia | done].
        rewrite Hdrop, Ha'. done.
      - exists j, ab. split_and!; [done | | lia | lia | done].
        rewrite (drop_S _ _ _ Hj). destruct ab. simpl in *.
        split_and!; [done | lia | done]. }
    cbn [mbind result_bind].
    rewrite (index_Some _ j' (padname prefix ab'))
      by (by rewrite list_lookup_fmap, Hj').
    cbn [mbind result_bind].
    destruct (IH (i + 1) j' ab' Hj' Htiles' ltac:(lia) ltac:(lia))
      as (lines & -> & Hlines & Hk).
    cbn [mbind result_bind mret result_ret].
    eexists. split_and!; [done | simpl; by rewrite Hlines |].
    intros [|k] y Hy.
    + injection Hy as ->. exists ab'. rewrite Z.add_0_r.
      split_and!; [by eapply list_elem_of_lookup_2 | lia | lia | done].
    + destruct (Hk k y Hy) as (pad & Hpad & Hin & Hline).
      exists pad. rewrite Nat2Z.inj_succ.
      replace (i + Z.succ (Z.of_nat k)) with (i + 1 + Z.of_nat k) by lia.
      split_and!; [done | lia | lia | done].
Qed.

(** When the pads tile the gene indices [[0, len(bed))] as consecutive
    closed intervals, [write_PAD_bed] raises nothing, writes one line per
    gene, and the line of gene [i] names a pad that holds [i]; it returns
    the number of pads and their names. *)
Theorem write_PAD_bed_assigns (prefix : string) (pads : list (Z * Z))
    (bed : list BedLine) :
  tiles 0 pads (Z.of_nat (length bed)) →
  ∃ lines,
    write_PAD_bed prefix pads bed
    = inr (lines, (length pads, padname prefix <$> pads)) ∧
    length lines = length bed ∧
    ∀ i x, bed !! i = Some x →
      ∃ pad, pad ∈ pads ∧ pad.1 ≤ Z.of_nat i ≤ pad.2 ∧
        lines !! i = Some {| pl_pad := padname prefix pad;
                             pl_start := Z.of_nat i;
                             pl_end := Z.of_nat i + 1;
                             pl_accn := accn x |}.
Proof.
  intros Htiles. unfold write_PAD_bed.
  destruct bed as [|x bed].
  - exists []. split_and!; [done | done |]. by intros i y ?.
  - destruct pads as [|ab pads]; [simpl in Htiles; lia |].
    pose proof Htiles as (Ha & Hab & _)%tiles_cons_inv.
    destruct (pad_loop_tiles prefix (ab :: pads)
                (Z.of_nat (length (x :: bed))) (x :: bed) 0 0%nat ab)
      as (lines & -> & Hlen & Hk); [done | by rewrite Ha | lia | lia |].
    exists lines. split_and!; [done | done |].
    intros i y Hy. destruct (Hk i y Hy) as (pad & ? & ? & Hline).
    exists pad. rewrite !Z.add_0_l in Hline. split_and!; [done | lia | lia | done].
Qed.

Lemma write_PAD_bed_assigns_witness :
  ∃ lines,
    write_PAD_bed "q" [(0, 0); (1, 1)] [gene "chr1" "a"; gene "chr1" "b"]
    = inr (lines, (2%nat, padname "q" <$> [(0, 0); (1, 1)])) ∧
    length lines = 2%nat.
Proof.
  destruct (write_PAD_bed_assigns "q" [(0, 0); (1, 1)]
              [gene "chr1" "a"; gene "chr1" "b"]) as (lines & H1 & H2 & _).
  - simpl. lia.
  - exists lines. by split.
Defined.

(** The pads of the repeated segment of [get_segments], on a small scale:
    the third gene is written under the name of the repeated pad, and the
    last gene alone under the pad that holds both. *)
Example write_PAD_bed_repeated_pad :
  match write_PAD_bed "q" [(0, 1); (0, 1); (2, 3)]
          [gene "c" "g0"; gene "c" "g1"; gene "c" "g2"; gene "c" "g3"] with
  | inr r => pl_pad <$> r.1
  | inl _ => []
  end
  = ["q:00000-00001"; "q:00000-00001"; "q:00000-00001"; "q:00002-00003"].
Proof. vm_compute. reflexivity. Qed.

(** Pads that stop before the last gene end the run with an IndexError. *)
Example write_PAD_bed_short_pads :
  write_PAD_bed "q" [(0, 0)] [gene "c" "g0"; gene "c" "g1"] = inl IndexError.
Proof. vm_compute. reflexivity. Qed.

(** ** cluster: the ranges of the anchor blocks *)

Lemma mapM_inr {A B} (f : A → result B) (l : list A) (k : list B) :
  mapM f l = inr k → Forall2 (λ x y, f x = inr y) l k.
Proof.
  revert k. induction l as [|x l IH]; intros k; simpl.
  - intros [= <-]. constructor.
  - destruct (f x) as [e|y] eqn:E; [done |]. simpl.
    destruct (mapM f l) as [e|k'] eqn:E'; [done |]. simpl.
    intros [= <-]. constructor; [done | by apply IH].
Qed.

Lemma mapM_inr_2 {A B} (f : A → result B) (l : list A) (k : list B) :
  Forall2 (λ x y, f x = inr y) l k → mapM f l = inr k.
Proof.
  induction 1 as [|x y l k Hxy _ IH]; simpl; [done |].
  by rewrite Hxy, IH.
Qed.

Lemma indices_inr (o : order) (accns : list string) (l : list Z) :
  indices o accns = inr l ↔
  Forall2 (λ a i, ∃ e, o !! a = Some (i, e)) accns l.
Proof.
  unfold indices. split.
  - intros H%mapM_inr. eapply Forall2_impl; [exact H |].
    intros a i. simpl. unfold getitem.
    destruct (o !! a) as [[i' e]|]; [| done]. simpl. intros [= <-]. eauto.
  - intros H. apply mapM_inr_2. eapply Forall2_impl; [exact H |].
    intros a i [e He]. simpl. unfold getitem. by rewrite He.
Qed.

Lemma foldl_min_spec (l : list Z) (x : Z) :
  foldl Z.min x l ∈ x :: l ∧ ∀ y, y ∈ x :: l → foldl Z.min x l ≤ y.
Proof.
  revert x. induction l as [|z l IH]; intros x; simpl.
  - split; [apply list_elem_of_here |].
    intros y ->%list_elem_of_singleton. done.
  - destruct (IH (Z.min x z)) as [Hin Hle]. split.
    + apply elem_of_cons in Hin as [->|Hin].
      * destruct (Z.min_spec x z) as [[_ ->]|[_ ->]];
          [apply list_elem_of_here
          | apply list_elem_of_further, list_elem_of_here].
      * by do 2 apply list_elem_of_further.
    + intros y [->|[->|Hy]%elem_of_cons]%elem_of_cons.
      * specialize (Hle _ (list_elem_of_here _ _)). lia.
      * specialize (Hle _ (list_elem_of_here _ _)). lia.
      * apply Hle. by apply list_elem_of_further.
Qed.

Lemma foldl_max_spec (l : list Z) (x : Z) :
  foldl Z.max x l ∈ x :: l ∧ ∀ y, y ∈ x :: l → y ≤ foldl Z.max x l.
Proof.
  revert x. induction l as [|z l IH]; intros x; simpl.
  - split; [apply list_elem_of_here |].
    intros y ->%list_elem_of_singleton. done.
  - destruct (IH (Z.max x z)) as [Hin Hle]. split.
    + apply elem_of_cons in Hin as [->|Hin].
      * destruct (Z.max_spec x z) as [[_ ->]|[_ ->]];
          [apply list_elem_of_further, list_elem_of_here
          | apply list_elem_of_here].
      * by do 2 apply list_elem_of_further.
    + intros y [->|[->|Hy]%elem_of_cons]%elem_of_cons.
      * specialize (Hle _ (list_elem_of_here _ _)). lia.
      * specialize (Hle _ (list_elem_of_here _ _)). lia.
      * apply Hle. by apply list_elem_of_further.
Qed.

Lemma py_min_max (l : list Z) (lo hi : Z) :
  py_min l = inr lo → py_max l = inr hi →
  lo ∈ l ∧ hi ∈ l ∧ ∀ y, y ∈ l → lo ≤ y ≤ hi.
Proof.
  destruct l as [|x l]; [done |]. simpl. intros [= <-] [= <-].
  destruct (foldl_min_spec l x) as [? Hlo].
  destruct (foldl_max_spec l x) as [? Hhi].
  split_and!; [done | done |]. intros y Hy.
  specialize (Hlo y Hy). specialize (Hhi y Hy). lia.
Qed.

Lemma Forall2_elem_of_r {A B} (P : A → B → Prop) (l : list A) (k : list B)
    (y : B) :
  Forall2 P l k → y ∈ k → ∃ x, x ∈ l ∧ P x y.
Proof.
  intros H (i & Hi)%list_elem_of_lookup.
  destruct (Forall2_lookup_r _ _ _ _ _ H Hi) as (x & Hx & Hxy).
  exists x. split; [by eapply list_elem_of_lookup_2 | done].
Qed.

Lemma Forall2_elem_of_l {A B} (P : A → B → Prop) (l : list A) (k : list B)
    (x : A) :
  Forall2 P l k → x ∈ l → ∃ y, y ∈ k ∧ P x y.
Proof.
  intros H (i & Hi)%list_elem_of_lookup.
  destruct (Forall2_lookup_l _ _ _ _ _ H Hi) as (y & Hy & Hxy).
  exists y. split; [by eapply list_elem_of_lookup_2 | done].
Qed.

Lemma ids_from_S (id : Z) (n : nat) :
  ids_from id (S n) = (id + 1) :: ids_from (id + 1) n.
Proof.
  unfold ids_from. cbn [seq fmap list_fmap]. f_equal; [lia |].
  rewrite <-fmap_S_seq, <-list_fmap_compose.
  apply list_fmap_ext. intros _ k _. simpl. lia.
Qed.

Lemma unzip_block_lines (lines : list (string * string)) :
  lines ≠ [] → unzip_block lines = inr (lines.*1, lines.*2).
Proof. by destruct lines. Qed.

(** One column of a block that passes: its indices, least and greatest. *)
Lemma column_spans (o : order) (accns : list string) (l : list Z)
    (lo hi id : Z) :
  accns ≠ [] → indices o accns = inr l →
  py_min l = inr lo → py_max l = inr hi →
  spans o accns {| r_seqid := "0"; r_start := lo; r_end := hi;
                   r_score := hi - lo; r_id := id |}.
Proof.
  intros Hne Hl%indices_inr Hlo Hhi.
  destruct (py_min_max l lo hi Hlo Hhi) as (Hinlo & Hinhi & Hbetween).
  unfold spans. simpl. split_and!; [done | done | done | | | |].
  - specialize (Hbetween lo Hinlo). lia.
  - destruct (Forall2_elem_of_r _ _ _ _ Hl Hinlo) as (a & ? & e & ?). eauto.
  - destruct (Forall2_elem_of_r _ _ _ _ Hl Hinhi) as (a & ? & e & ?). eauto.
  - intros a Ha.
    destruct (Forall2_elem_of_l _ _ _ _ Hl Ha) as (i & Hi & e & ?).
    exists i, e. split; [done | by apply Hbetween].
Qed.

(** When the loop over the anchor blocks completes, it has made one Range
    per axis for each block of at least [minsize] lines, in order; each
    Range spans the indices of its column of the block, and the two Ranges
    of a block carry the same identifier, counted from [id + 1]. *)
Theorem block_ranges_spans (qorder sorder : order) (minsize id : Z)
    (blocks : list (list (string * string))) (qranges sranges : list Range) :
  block_ranges qorder sorder minsize id blocks = inr (qranges, sranges) →
  Forall2 (λ lines qr, spans qorder lines.*1 qr)
    (passed_blocks minsize blocks) qranges ∧
  Forall2 (λ lines sr, spans sorder lines.*2 sr)
    (passed_blocks minsize blocks) sranges ∧
  r_id <$> qranges = ids_from id (length qranges) ∧
  r_id <$> sranges = r_id <$> qranges.
Proof.
  revert id qranges sranges.
  induction blocks as [|lines blocks IH]; intros id qranges sranges.
  - simpl. intros [= <- <-]. split_and!; constructor.
  - cbn [block_ranges]. unfold passed_blocks. rewrite filter_cons.
    fold (passed_blocks minsize blocks).
    destruct (decide (Z.of_nat (length lines) < minsize)) as [Hlt|Hge].
    { rewrite decide_False by lia. apply IH. }
    rewrite decide_True by lia.
    destruct (decide (lines = [])) as [->|Hne]; [done |].
    rewrite (unzip_block_lines lines Hne).
    cbn [mbind result_bind mret result_ret fst snd].
    assert (lines.*1 ≠ []) as Hne1 by (by destruct lines).
    assert (lines.*2 ≠ []) as Hne2 by (by destruct lines).
    destruct (indices qorder lines.*1) as [|q] eqn:Hq;
      cbn [mbind result_bind]; [done |].
    destruct (indices sorder lines.*2) as [|s] eqn:Hs;
      cbn [mbind result_bind]; [done |].
    destruct (py_min q) as [|minq] eqn:Hminq;
      cbn [mbind result_bind]; [done |].
    destruct (py_max q) as [|maxq] eqn:Hmaxq;
      cbn [mbind result_bind]; [done |].
    destruct (py_min s) as [|mins] eqn:Hmins;
      cbn [mbind result_bind]; [done |].
    destruct (py_max s) as [|maxs] eqn:Hmaxs;
      cbn [mbind result_bind]; [done |].
    destruct (block_ranges qorder sorder minsize (id + 1) blocks)
      as [|[qr sr]] eqn:Hrest;
      cbn [mbind result_bind mret result_ret fst snd]; [done |].
    intros [= <- <-].
    destruct (IH _ _ _ Hrest) as (IHq & IHs & IHid & IHeq).
    split_and!.
    + constructor; [| done]. by apply (column_spans qorder _ q).
    + constructor; [| done]. by apply (column_spans sorder _ s).
    + cbn [fmap list_fmap length r_id]. rewrite ids_from_S. f_equal. done.
    + cbn [fmap list_fmap r_id]. f_equal. done.
Qed.

Lemma indices_known (o : order) (accns : list string) :
  (∀ a, a ∈ accns → is_Some (o !! a)) →
  ∃ l, indices o accns = inr l ∧ length l = length accns.
Proof.
  induction accns as [|a accns IH]; intros Hall.
  - by exists [].
  - destruct (Hall a (list_elem_of_here _ _)) as [[i e] Ha].
    destruct IH as (l & Hl & Hlen).
    { intros b ?. by apply Hall, list_elem_of_further. }
    exists (i :: l). split; [| simpl; by rewrite Hlen].
    apply indices_inr. constructor; [by exists e | by apply indices_inr].
Qed.

(** The loop over the anchor blocks completes when every block that passes
    has a line and all its accessions are in the lookups. *)
Theorem block_ranges_completes (qorder sorder : order) (minsize id : Z)
    (blocks : list (list (string * string))) :
  (∀ lines, lines ∈ passed_blocks minsize blocks →
     lines ≠ [] ∧
     ∀ ab, ab ∈ lines →
       is_Some (qorder !! ab.1) ∧ is_Some (sorder !! ab.2)) →
  ∃ r, block_ranges qorder sorder minsize id blocks = inr r.
Proof.
  revert id. induction blocks as [|lines blocks IH]; intros id Hall.
  - by eexists.
  - cbn [block_ranges]. unfold passed_blocks in Hall.
    rewrite filter_cons in Hall. fold (passed_blocks minsize blocks) in Hall.
    destruct (decide (Z.of_nat (length lines) < minsize)) as [Hlt|Hge].
    { rewrite decide_False in Hall by lia. by apply IH. }
    rewrite decide_True in Hall by lia.
    destruct (Hall lines (list_elem_of_here _ _)) as [Hne Hknown].
    rewrite (unzip_block_lines lines Hne).
    cbn [mbind result_bind mret result_ret fst snd].
    destruct (indices_known qorder lines.*1) as (q & -> & Hlq).
    { intros a (x & -> & Hx)%list_elem_of_fmap. by apply Hknown. }
    destruct (indices_known sorder lines.*2) as (s & -> & Hls).
    { intros a (x & -> & Hx)%list_elem_of_fmap. by apply Hknown. }
    cbn [mbind result_bind].
    rewrite length_fmap in Hlq, Hls.
    destruct lines as [|ab lines]; [done |].
    destruct q as [|q0 q]; [done |]. destruct s as [|s0 s]; [done |].
    cbn [py_min py_max mbind result_bind mret result_ret].
    destruct (IH (id + 1)) as [r ->]; [| by eexists].
    intros l Hl. by apply Hall, list_elem_of_further.
Qed.

Lemma block_ranges_completes_witness :
  ∃ r, block_ranges two_genes two_genes 1 0 [[("a", "b"); ("b", "b")]] = inr r.
Proof.
  apply (block_ranges_completes two_genes two_genes 1 0
           [[("a", "b"); ("b", "b")]]).
  intros lines Hl. vm_compute in Hl.
  apply list_elem_of_singleton in Hl as ->. split; [done |].
  intros ab [->|Hab]%elem_of_cons.
  - split; by eexists.
  - apply list_elem_of_singleton in Hab as ->. split; by eexists.
Defined.

Lemma block_ranges_spans_witness :
  Forall2 (λ lines qr, spans two_genes lines.*1 qr)
    (passed_blocks 1 [[("a", "b"); ("b", "b")]])
    [ {| r_seqid := "0"; r_start := 0; r_end := 1; r_score := 1; r_id := 1 |} ].
Proof.
  apply (block_ranges_spans two_genes two_genes 1 0
           [[("a", "b"); ("b", "b")]]
           [ {| r_seqid := "0"; r_start := 0; r_end := 1;
                r_score := 1; r_id := 1 |} ]
           [ {| r_seqid := "0"; r_start := 1; r_end := 1;
                r_score := 0; r_id := 1 |} ]).
  vm_compute. reflexivity.
Defined.

(** ** cluster: pad names and their positions *)

Lemma padid_fold (l : list (nat * string)) (d : gmap string nat)
    (a : string) (i : nat) :
  foldl (λ d ia, <[ ia.2 := ia.1 ]> d) d l !! a = Some i →
  d !! a = Some i ∨ (i, a) ∈ l.
Proof.
  revert d. induction l as [|[j b] l IH]; intros d; simpl; [by left |].
  intros [Hd|Hin]%IH.
  - destruct (decide (b = a)) as [->|Hne].
    + rewrite lookup_insert_eq in Hd. injection Hd as ->.
      right. apply list_elem_of_here.
    + rewrite lookup_insert_ne in Hd by done. by left.
  - right. by apply list_elem_of_further.
Qed.

Lemma padid_fold_is_Some (l : list (nat * string)) (d : gmap string nat)
    (a : string) :
  is_Some (d !! a) ∨ (∃ i, (i, a) ∈ l) →
  is_Some (foldl (λ d ia, <[ ia.2 := ia.1 ]> d) d l !! a).
Proof.
  revert d. induction l as [|[j b] l IH]; intros d; simpl.
  - intros [?|(i & ?%elem_of_nil)]; done.
  - intros [Hd|(i & [Heq|Hin]%elem_of_cons)]; apply IH.
    + left. destruct (decide (b = a)) as [->|Hne].
      * rewrite lookup_insert_eq. by eexists.
      * by rewrite lookup_insert_ne.
    + injection Heq as -> ->. left. simpl. rewrite lookup_insert_eq.
      by eexists.
    + right. eauto.
Qed.

Lemma padid_Some (names : list string) (a : string) (i : nat) :
  padid names !! a = Some i → names !! i = Some a.
Proof.
  unfold padid. intros [Hd|Hin]%padid_fold; [by rewrite lookup_empty in Hd |].
  apply elem_of_lookup_imap in Hin as (j & b & [= -> ->] & Hj). done.
Qed.

Lemma padid_elem_of (names : list string) (a : string) :
  a ∈ names → is_Some (padid names !! a).
Proof.
  intros (i & Hi)%list_elem_of_lookup. unfold padid.
  apply padid_fold_is_Some. right. exists i.
  by apply (elem_of_lookup_imap_2 pair).
Qed.

(** The dictionary from pad names to positions: a name is a key exactly when
    it is in the list, its value is a position that holds the name, and when
    the names are distinct every position is found again through its
    name. *)
Theorem padid_positions (names : list string) :
  (∀ a i, padid names !! a = Some i → names !! i = Some a) ∧
  (∀ a, is_Some (padid names !! a) ↔ a ∈ names) ∧
  (NoDup names → ∀ a i, names !! i = Some a → padid names !! a = Some i).
Proof.
  split_and!.
  - apply padid_Some.
  - intros a. split; [| apply padid_elem_of].
    intros [i Hi]. apply padid_Some in Hi. by eapply list_elem_of_lookup_2.
  - intros Hnd a i Hi.
    destruct (padid_elem_of names a) as [j Hj];
      [by eapply list_elem_of_lookup_2 |].
    pose proof (padid_Some _ _ _ Hj) as Hj'.
    by rewrite (NoDup_lookup _ _ _ _ Hnd Hi Hj').
Qed.

(** ** cluster: the shape of the matrices *)

Lemma shape_zeros (m n : nat) : shape (zeros m n) m n.
Proof.
  unfold shape, zeros. split; [apply length_replicate |].
  apply Forall_replicate, length_replicate.
Qed.

Lemma incr_shape (a a' : list (list Z)) (m n i j : nat) :
  shape a m n → incr a i j = inr a' → shape a' m n.
Proof.
  intros [Hm Hn]. unfold incr.
  destruct (a !! i) as [row|] eqn:Hi; [| done].
  destruct (row !! j) as [v|] eqn:Hj; [| done].
  intros [= <-]. split; [by rewrite length_insert |].
  apply Forall_insert; [done |]. rewrite length_insert.
  rewrite Forall_forall in Hn. apply Hn. by eapply list_elem_of_lookup_2.
Qed.

Lemma incr_in_range (a : list (list Z)) (m n i j : nat) :
  shape a m n → (i < m)%nat → (j < n)%nat → ∃ a', incr a i j = inr a'.
Proof.
  intros [Hm Hn] Hi Hj. unfold incr.
  destruct (lookup_lt_is_Some_2 a i) as [row Hrow]; [lia |].
  rewrite Hrow. rewrite Forall_forall in Hn.
  destruct (lookup_lt_is_Some_2 row j) as [v Hv].
  { rewrite (Hn row); [done | by eapply list_elem_of_lookup_2]. }
  rewrite Hv. by eexists.
Qed.

Lemma getitem_cases {K V} `{Countable K} (d : gmap K V) (k : K) :
  (d !! k = None ∧ getitem d k = inl KeyError) ∨
  (∃ v, d !! k = Some v ∧ getitem d k = inr v).
Proof. unfold getitem. destruct (d !! k); [right; eauto | by left]. Qed.

(** A row of the blast file that the counting loop can place: both
    accessions are in the pad orders and their pads are among the names. *)
Lemma count_row_outcome (qpadorder spadorder : order)
    (qpadnames spadnames : list string) (obs : list (list Z)) (dots : Z)
    (b : BlastLine) :
  shape obs (length qpadnames) (length spadnames) →
  (count_row qpadorder spadorder (padid qpadnames) (padid spadnames)
     (obs, dots) b = inl KeyError ∧
   ¬ ∃ qe se, qpadorder !! query b = Some qe ∧
              spadorder !! subject b = Some se ∧
              seqid qe.2 ∈ qpadnames ∧ seqid se.2 ∈ spadnames) ∨
  ∃ obs', count_row qpadorder spadorder (padid qpadnames) (padid spadnames)
            (obs, dots) b = inr (obs', dots + 1) ∧
          shape obs' (length qpadnames) (length spadnames) ∧
          ∃ qe se, qpadorder !! query b = Some qe ∧
                   spadorder !! subject b = Some se ∧
                   seqid qe.2 ∈ qpadnames ∧ seqid se.2 ∈ spadnames.
Proof.
  intros Hshape. unfold count_row.
  destruct (getitem_cases qpadorder (query b)) as [[Hq ->]|(qe & Hq & ->)];
    cbn [mbind result_bind].
  { left. split; [done |]. intros (? & ? & ? & _). congruence. }
  destruct (getitem_cases spadorder (subject b)) as [[Hs ->]|(se & Hs & ->)];
    cbn [mbind result_bind].
  { left. split; [done |]. intros (? & ? & _ & ? & _). congruence. }
  destruct (getitem_cases (padid qpadnames) (seqid qe.2))
    as [[Hqi ->]|(qsi & Hqi & ->)]; cbn [mbind result_bind].
  { left. split; [done |]. intros (qe' & se' & Hq' & _ & Hin & _).
    assert (qe' = qe) as -> by congruence.
    apply padid_elem_of in Hin as [? ?]. congruence. }
  destruct (getitem_cases (padid spadnames) (seqid se.2))
    as [[Hsi ->]|(ssi & Hsi & ->)]; cbn [mbind result_bind].
  { left. split; [done |]. intros (qe' & se' & _ & Hs' & _ & Hin).
    assert (se' = se) as -> by congruence.
    apply padid_elem_of in Hin as [? ?]. congruence. }
  apply padid_Some in Hqi. apply padid_Some in Hsi.
  destruct (incr_in_range obs _ _ qsi ssi Hshape) as [obs' Hincr];
    [by eapply lookup_lt_Some | by eapply lookup_lt_Some |].
  right. exists obs'. rewrite Hincr. cbn [mbind result_bind].
  split_and!; [done | by eapply incr_shape |].
  exists qe, se.
  split_and!; [done | done | by eapply list_elem_of_lookup_2
              | by eapply list_elem_of_lookup_2].
Qed.

(** The counting loop of [cluster] never runs off the matrix: it either
    completes, with one count per row read in a matrix that still has a row
    per query pad and a column per subject pad, or it raises a KeyError,
    which happens exactly when some row cannot be placed (an accession
    missing from a pad order, or a pad missing from the names). *)
Theorem count_hits_outcome (qpadorder spadorder : order)
    (qpadnames spadnames : list string) (blastfile : list BlastLine) :
  let placed b :=
    ∃ qe se, qpadorder !! query b = Some qe ∧
             spadorder !! subject b = Some se ∧
             seqid qe.2 ∈ qpadnames ∧ seqid se.2 ∈ spadnames in
  let counting :=
    count_hits qpadorder spadorder (padid qpadnames) (padid spadnames)
      (zeros (length qpadnames) (length spadnames), 0) blastfile in
  (counting = inl KeyError ∧ ¬ Forall placed blastfile) ∨
  (∃ obs, counting = inr (obs, Z.of_nat (length blastfile)) ∧
          shape obs (length qpadnames) (length spadnames) ∧
          Forall placed blastfile).
Proof.
  intros placed counting. unfold counting.
  assert (∀ rows obs dots,
    shape obs (length qpadnames) (length spadnames) →
    (count_hits qpadorder spadorder (padid qpadnames) (padid spadnames)
       (obs, dots) rows = inl KeyError ∧ ¬ Forall placed rows) ∨
    (∃ obs', count_hits qpadorder spadorder (padid qpadnames)
               (padid spadnames) (obs, dots) rows
             = inr (obs', dots + Z.of_nat (length rows)) ∧
             shape obs' (length qpadnames) (length spadnames) ∧
             Forall placed rows)) as Hloop.
  { induction rows as [|b rows IH]; intros obs dots Hshape.
    - right. exists obs. rewrite Z.add_0_r. split_and!; [done | done |].
      constructor.
    - cbn [count_hits].
      destruct (count_row_outcome qpadorder spadorder qpadnames spadnames
                  obs dots b Hshape)
        as [[-> Hnot]|(obs1 & -> & Hshape1 & Hplaced)];
        cbn [mbind result_bind].
      + left. split; [done |]. intros [? _]%Forall_cons. by apply Hnot.
      + destruct (IH obs1 (dots + 1) Hshape1)
          as [[-> Hnot]|(obs' & -> & Hshape' & Hall)].
        * left. split; [done |]. intros [_ ?]%Forall_cons. by apply Hnot.
        * right. exists obs'. split_and!; [| done |].
          -- f_equal. f_equal. cbn [length]. lia.
          -- by constructor. }
  apply (Hloop blastfile _ 0), shape_zeros.
Qed.

Lemma mapM_length {A B} (f : A → result B) (l : list A) (k : list B) :
  mapM f l = inr k → length k = length l.
Proof. intros H%mapM_inr. symmetry. by eapply Forall2_length. Qed.

Lemma count_hits_shape (qpadorder spadorder : order)
    (qpadid spadid : gmap string nat) (m n : nat)
    (blastfile : list BlastLine) (st st' : list (list Z) * Z) :
  shape st.1 m n →
  count_hits qpadorder spadorder qpadid spadid st blastfile = inr st' →
  shape st'.1 m n.
Proof.
  revert st. induction blastfile as [|b rows IH]; intros st Hshape; simpl.
  - by intros [= <-].
  - destruct (count_row qpadorder spadorder qpadid spadid st b) as [|st1]
      eqn:Hrow; cbn [mbind result_bind]; [done |].
    apply IH. revert Hrow. unfold count_row. destruct st as [obs dots].
    destruct (getitem qpadorder (query b)) as [|qe];
      cbn [mbind result_bind]; [done |].
    destruct (getitem spadorder (subject b)) as [|se];
      cbn [mbind result_bind]; [done |].
    destruct (getitem qpadid (seqid qe.2)) as [|qsi];
      cbn [mbind result_bind]; [done |].
    destruct (getitem spadid (seqid se.2)) as [|ssi];
      cbn [mbind result_bind]; [done |].
    destruct (incr obs qsi ssi) as [|obs'] eqn:Hincr;
      cbn [mbind result_bind]; [done |].
    intros [= <-]. by eapply incr_shape.
Qed.

Section shape_facts.

Variable F : Type.
Variable expected_cell : Z → Z → Z → Z → F.
Variable fsum : list (list F) → F.
Variable round_int : F → Z.
Variable significance : Z → Z → F → result F.

Lemma expected_matrix_shape (qpadnames spadnames : list string)
    (qpadlen spadlen : gmap string Z) (all_dots S : Z)
    (exp : list (list F)) :
  expected_matrix F expected_cell qpadnames spadnames qpadlen spadlen
    all_dots S = inr exp →
  shape exp (length qpadnames) (length spadnames).
Proof.
  unfold expected_matrix. intros Hexp. split; [by eapply mapM_length |].
  apply mapM_inr in Hexp. apply Forall_forall. intros row Hrow.
  destruct (Forall2_elem_of_r _ _ _ _ Hexp Hrow) as (a & _ & Ha).
  simpl in Ha.
  destruct (getitem qpadlen a) as [|alen]; cbn [mbind result_bind] in Ha;
    [done |].
  by eapply mapM_length.
Qed.

Lemma significance_matrix_shape (M : Z) (obs : list (list Z))
    (exp lm : list (list F)) (m n : nat) :
  shape obs m n → shape exp m n →
  significance_matrix F significance M obs exp = inr lm →
  shape lm m n.
Proof.
  intros [Hom Hon] [Hem Hen]. unfold significance_matrix. intros Hlm. split.
  - apply mapM_length in Hlm. rewrite Hlm, length_zip. lia.
  - apply mapM_inr in Hlm. apply Forall_forall. intros row Hrow.
    destruct (Forall2_elem_of_r _ _ _ _ Hlm Hrow) as ([orow erow] & Hin & Hr).
    simpl in Hr. apply mapM_length in Hr. rewrite Hr, length_zip.
    apply elem_of_zip_l in Hin as Ho. apply elem_of_zip_r in Hin as He.
    rewrite Forall_forall in Hon. rewrite Forall_forall in Hen.
    simpl in Ho, He. rewrite (Hon _ Ho), (Hen _ He). lia.
Qed.

(** A run of the scorer that completes has filled three matrices with one
    row per query pad and one column per subject pad: the observed counts,
    the expected counts and the significance scores. *)
Theorem cluster_score_shapes (qpadnames spadnames : list string)
    (qpadorder spadorder : order) (qpadlen spadlen : gmap string Z)
    (len_qbed len_sbed : Z) (blastfile : list BlastLine) (r : Scores F) :
  cluster_score F expected_cell fsum round_int significance
    qpadnames spadnames qpadorder spadorder qpadlen spadlen
    len_qbed len_sbed blastfile = inr r →
  shape (observed F r) (length qpadnames) (length spadnames) ∧
  shape (expected F r) (length qpadnames) (length spadnames) ∧
  shape (logmp F r) (length qpadnames) (length spadnames).
Proof.
  unfold cluster_score.
  destruct (count_hits _ _ _ _ _ _) as [|st] eqn:Hc;
    cbn [mbind result_bind]; [done |].
  apply (count_hits_shape _ _ _ _ (length qpadnames) (length spadnames))
    in Hc; [| apply shape_zeros].
  destruct (assert _); cbn [mbind result_bind]; [done |].
  destruct (expected_matrix _ _ _ _ _ _ _ _) as [|exp] eqn:He;
    cbn [mbind result_bind]; [done |].
  apply expected_matrix_shape in He.
  destruct (assert _); cbn [mbind result_bind]; [done |].
  destruct (significance_matrix _ _ _ _ _) as [|lm] eqn:Hs;
    cbn [mbind result_bind]; [done |].
  apply (significance_matrix_shape _ _ _ _ _ _ Hc He) in Hs.
  intros [= <-]. simpl. done.
Qed.

End shape_facts.

Lemma cluster_score_shapes_witness : shape [[0%Q]] 1 1.
Proof.
  apply (cluster_score_shapes Q exact_cell exact_sum exact_round
    (λ _ _ _, inr 0%Q)
    ["q:00000-00001"] ["q:00000-00001"] one_pad one_pad
    {[ "q:00000-00001" := 2 ]} {[ "q:00000-00001" := 2 ]} 2 2
    [ {| query := "a"; subject := "b" |} ]
    {| observed := [[1]]; all_dots := 1;
       expected := [[exact_cell 1 2 2 4]]; logmp := [[0%Q]] |}).
  vm_compute. reflexivity.
Defined.

(** ** synteny_scan: the form of a cluster *)

Lemma size_list_to_set_le (l : list Z) :
  (size (list_to_set l : gset Z) ≤ length l)%nat.
Proof.
  induction l as [|x l IH].
  - rewrite list_to_set_nil, size_empty. simpl. lia.
  - rewrite list_to_set_cons, size_union_alt, size_singleton. simpl.
    pose proof (subseteq_size (list_to_set l ∖ {[x]}) (list_to_set l : gset Z)
                  (subseteq_difference_l _ _ _ (reflexivity _))).
    lia.
Qed.

Lemma _score_le_length (c : list point) : _score c ≤ Z.of_nat (length c).
Proof.
  unfold _score. cbv zeta.
  etrans; [apply Z.le_min_l |]. apply Nat2Z.inj_le.
  pose proof (size_list_to_set_le (c.*1)) as H1.
  by rewrite length_fmap in H1.
Qed.

(** A cluster returned by [synteny_scan] is a sorted list of distinct input
    points; it is not empty and holds at least [N] points. *)
Theorem synteny_scan_cluster_form (points : list point) (xdist ydist N : Z)
    (c : list point) :
  c ∈ (synteny_scan points xdist ydist N).1 →
  Sorted point_le c ∧ NoDup c ∧ c ≠ [] ∧ N ≤ Z.of_nat (length c) ∧
  ∀ p, p ∈ c → p ∈ points.
Proof.
  intros (g & Hg & Hs & ->)%synteny_scan_clusters.
  pose proof (py_sort_Permutation g) as Hp.
  split_and!.
  - apply py_sort_Sorted.
  - rewrite Hp.
    destruct (scan_groups_wf points xdist ydist) as [Hnd _].
    apply list_elem_of_lookup in Hg as (k & Hk).
    rewrite <-(take_drop_middle _ _ _ Hk), concat_app in Hnd. simpl in Hnd.
    apply NoDup_app in Hnd as (_ & _ & Hnd).
    by apply NoDup_app in Hnd as (Hnd & _ & _).
  - intros Hnil. apply (scan_groups_nonempty _ _ _ _ Hg).
    apply Permutation_nil_r. by rewrite <-Hp, Hnil.
  - rewrite Hp. pose proof (_score_le_length g). lia.
  - intros p Hin. rewrite elem_of_py_sort in Hin.
    pose proof (scan_groups_all_linked points xdist ydist) as Hall.
    rewrite Forall_forall in Hall. by apply (Hall g Hg).
Qed.

Lemma synteny_scan_cluster_form_witness :
  Sorted point_le [(1,1); (2,2); (3,3)].
Proof.
  apply (synteny_scan_cluster_form [(50,50); (3,3); (1,1); (2,2)] 5 5 2).
  vm_compute. apply list_elem_of_here.
Defined.

(** ** get_blocks *)

Lemma before_last_dot_no_dot (t : string) :
  no_dot t → before_last_dot t = None.
Proof.
  unfold no_dot. induction t as [|c t IH]; simpl; [done |].
  intros Hc. rewrite IH.
  - rewrite decide_False; [done |]. intros ->. apply Hc. by left.
  - intros ?. apply Hc. by right.
Qed.

Lemma before_last_dot_app (s t : string) :
  no_dot t → before_last_dot (s +:+ "." +:+ t) = Some s.
Proof.
  intros Ht. induction s as [|c s IH].
  - change (before_last_dot (String "." t) = Some EmptyString). simpl.
    by rewrite (before_last_dot_no_dot t Ht).
  - change (before_last_dot (String c (s +:+ "." +:+ t)) = Some (String c s)).
    simpl. by rewrite IH.
Qed.

(** [rsplit(".", 1)[0]] takes off the last dot and what follows it, and
    leaves a name without a dot as it is. *)
Theorem rsplit1_strips (s t : string) :
  no_dot t → rsplit1 (s +:+ "." +:+ t) = s ∧ rsplit1 t = t.
Proof.
  intros Ht. unfold rsplit1.
  by rewrite before_last_dot_app, before_last_dot_no_dot.
Qed.

Lemma rsplit1_strips_witness :
  rsplit1 ("Medtr1g004940.2" +:+ "." +:+ "1") = "Medtr1g004940.2".
Proof.
  apply (rsplit1_strips "Medtr1g004940.2" "1").
  unfold no_dot. simpl. intros H. inversion H as [|? ? ? H']. inversion H'.
Defined.

Lemma elem_of_marker_points (bs : list MarkerLine) (o : order) (p : point) :
  p ∈ marker_points bs o ↔
  ∃ b e, b ∈ bs ∧ o !! rsplit1 (m_accn b) = Some (p.1, e) ∧
         p.2 = (m_start b + m_end b) `div` 2.
Proof.
  induction bs as [|b bs IH]; simpl.
  - split; [by intros ?%elem_of_nil | by intros (b & e & ?%elem_of_nil & _)].
  - destruct (o !! rsplit1 (m_accn b)) as [[x xx]|] eqn:E.
    + rewrite elem_of_cons, IH. split.
      * intros [->|(b' & e & ? & ? & ?)].
        -- exists b, xx. split; [apply list_elem_of_here | done].
        -- exists b', e. split; [by apply list_elem_of_further | done].
      * intros (b' & e & [->|?]%elem_of_cons & Hb & Hy).
        -- left. destruct p as [p1 p2]. simpl in *. congruence.
        -- right. eauto.
    + rewrite IH. split.
      * intros (b' & e & ? & ? & ?).
        exists b', e. split; [by apply list_elem_of_further | done].
      * intros (b' & e & [->|?]%elem_of_cons & Hb & Hy); [congruence |].
        eauto.
Qed.

(** Every point of a block that [get_blocks] returns comes from a marker of
    the scaffold whose accession, without its last dotted suffix, is in the
    lookup: x is the index of the marker and y the midpoint of its hit,
    rounded down. Markers unknown to the lookup take no part. The score of
    the block is at least [N]. *)
Theorem get_blocks_points (bs : list MarkerLine) (o : order)
    (xdist ydist N : Z) (c : list point) :
  c ∈ get_blocks bs o xdist ydist N →
  N ≤ _score c ∧
  ∀ p, p ∈ c →
    ∃ b e, b ∈ bs ∧ o !! rsplit1 (m_accn b) = Some (p.1, e) ∧
           p.2 = (m_start b + m_end b) `div` 2.
Proof.
  unfold get_blocks. intros (g & Hg & Hs & ->)%synteny_scan_clusters.
  split; [by rewrite _score_py_sort |].
  intros p Hp. rewrite elem_of_py_sort in Hp.
  apply elem_of_marker_points.
  pose proof (scan_groups_all_linked (marker_points bs o) xdist ydist) as Hall.
  rewrite Forall_forall in Hall. by apply (Hall g Hg).
Qed.

Lemma get_blocks_points_witness :
  2 ≤ _score [(0, 15); (1, 12)].
Proof.
  apply (get_blocks_points
    [ {| m_accn := "a.1"; m_start := 10; m_end := 21 |};
      {| m_accn := "zz.1"; m_start := 11; m_end := 12 |};
      {| m_accn := "b.1"; m_start := 12; m_end := 13 |} ]
    two_genes 5 5 2 [(0, 15); (1, 12)]).
  vm_compute. apply list_elem_of_here.
Defined.
